(** * Merging duplicate model objects

    A shallow embedding of [django_merge_model_objects.py]: the procedure
    [merge_model_objects] that folds a list of duplicate ("alias") records
    into a primary record, re-pointing the records that reference the
    aliases, back-filling blank fields of the primary and deleting the
    aliases.

    The procedure is written against an object-relational mapper.  The part
    of the mapper that the procedure touches is modelled first (values,
    instances, relation descriptors, the registry of model classes, the
    stored rows and the persistence calls); the procedure itself follows,
    statement by statement, in a small state-and-exception monad. *)

From stdpp Require Import base strings gmap sets list.
From Stdlib Require Import ZArith Lia.

(** ** Values and instances *)

(** The values a column or an instance attribute holds. *)
Inductive value : Type :=
| VNone
| VStr (s : string)
| VInt (n : Z).

#[global] Instance value_eq_dec : EqDecision value.
Proof. solve_decision. Defined.

(** [val in [None, '']]: only [None] and the empty string are blank; the
    number zero is not. *)
Definition is_blank (val : value) : bool :=
  match val with
  | VNone => true
  | VStr EmptyString => true
  | _ => false
  end.

(** An object in memory: its class, the key under which the mapper stores it
    ([obj.pk]) and its attribute dictionary (one entry per column). *)
Record instance : Type := Instance {
  i_class : string;
  i_pk : Z;
  i_attrs : gmap string value
}.

(** Rows are stored per model, under their primary key. *)
Definition key_of (obj : instance) : string * Z := (i_class obj, i_pk obj).

(** ** Relation descriptors and the registry of classes *)

(** A single-target relation seen from the side that is pointed at: the model
    whose records hold the reference ([.field.model]), the name of the
    referencing field ([.field.name]), what [get_accessor_name()] returns, and
    whether the relation is hidden, in which case the pointed-at objects have
    no attribute of that name. *)
Record related_object : Type := RelatedObject {
  ro_model : string;
  ro_field_name : string;
  ro_accessor_name : string;
  ro_hidden : bool
}.

(** A many-to-many relation seen from the side that is pointed at.  The
    accessor name is [None] for a symmetrical relation of a model with
    itself, which has no reverse accessor. *)
Record related_many : Type := RelatedMany {
  rm_model : string;
  rm_field_name : string;
  rm_accessor_name : option string
}.

(** An element of [_meta.local_fields]: its [attname], whether it is an
    [AutoField], and the relation answering [get_accessor_name()] and
    [.field.name] when the object answers them at all. *)
Record local_field : Type := LocalField {
  lf_attname : string;
  lf_auto : bool;
  lf_rel : option related_object
}.

(** A generic foreign key: the declaring model, the field name, and the two
    columns naming the type and the key of the record pointed at. *)
Record generic_foreign_key : Type := GenericForeignKey {
  gfk_model : string;
  gfk_name : string;
  gfk_ct_field : string;
  gfk_fk_field : string
}.

(** What a class dictionary ([model.__dict__]) may hold under a name. *)
Inductive class_attr : Type :=
| AttrGenericForeignKey (g : generic_foreign_key)
| AttrOther.

(** A class known to the registry. [c_bases] lists every proper ancestor. *)
Record model_class : Type := ModelClass {
  c_name : string;
  c_bases : list string;
  c_dict : list (string * class_attr);
  c_local_fields : list local_field;
  c_related_many_to_many : list related_many;
  c_related_one_to_one : list related_object;
  c_related_one_to_many : list related_object
}.

(** The registry, in the order of [apps.get_models()]. *)
Definition schema : Type := list model_class.

(** [django.db.models.Model] *)
Definition Model : string := "Model".

(** ** The store and the trace of persistence calls *)

Inductive event : Type :=
| EvSave (k : string * Z) (r : gmap string value)
| EvDelete (k : string * Z)
| EvRemove (l : string * string * Z * Z)
| EvAdd (l : string * string * Z * Z).

(** [db] holds the rows, [m2m] the many-to-many links as
    (declaring model, field, key of the declaring record, key of the target),
    [log] the persistence calls issued so far, oldest first. *)
Record world : Type := World {
  db : gmap (string * Z) (gmap string value);
  m2m : gset (string * string * Z * Z);
  log : list event
}.

(** ** Exceptions and the monad of the procedure *)

Inductive exn : Type :=
| TypeError (msg : string)
| AttributeError (name : string).

Inductive result (A : Type) : Type :=
| Ok (a : A)
| Raise (e : exn).
Arguments Ok {A} a.
Arguments Raise {A} e.

Definition M (A : Type) : Type := world → result A * world.

Definition ret {A : Type} (a : A) : M A := λ w, (Ok a, w).

Definition raise {A : Type} (e : exn) : M A := λ w, (Raise e, w).

Definition bind {A B : Type} (m : M A) (k : A → M B) : M B :=
  λ w, match m w with
       | (Ok a, w') => k a w'
       | (Raise e, w') => (Raise e, w')
       end.

Declare Scope merge_scope.
Delimit Scope merge_scope with merge.
Notation "x <- c ;; k" := (bind c (λ x, k))
  (at level 100, c at next level, right associativity) : merge_scope.
Notation "c ;; k" := (bind c (λ _, k))
  (at level 100, right associativity) : merge_scope.
Open Scope merge_scope.

(** [for x in l: body(x)] *)
Fixpoint for_each {A : Type} (l : list A) (body : A → M unit) : M unit :=
  match l with
  | [] => ret ()
  | x :: l' => body x ;; for_each l' body
  end.

(** A loop that carries the variables it rebinds. *)
Fixpoint for_fold {A S : Type} (l : list A) (body : A → S → M S) (s : S) : M S :=
  match l with
  | [] => ret s
  | x :: l' => s' <- body x s ;; for_fold l' body s'
  end.

(** ** The calls into the mapper *)

(** [getattr(obj, name)] on a column attribute. *)
Definition getattr (obj : instance) (name : string) : M value :=
  λ w, match i_attrs obj !! name with
       | Some v => (Ok v, w)
       | None => (Raise (AttributeError name), w)
       end.

(** [setattr(obj, name, val)] on a column attribute. *)
Definition setattr (obj : instance) (name : string) (val : value) : instance :=
  Instance (i_class obj) (i_pk obj) (<[name := val]> (i_attrs obj)).

(** [setattr(obj, name, target)] on a reference field: the column takes the
    key of [target]. *)
Definition set_reference (obj : instance) (name : string) (target : instance) : instance :=
  setattr obj name (VInt (i_pk target)).

(** [obj.save()] *)
Definition save (obj : instance) : M unit :=
  λ w, (Ok (), World (<[key_of obj := i_attrs obj]> (db w)) (m2m w)
                     (log w ++ [EvSave (key_of obj) (i_attrs obj)])).

(** [obj.delete()] removes the record itself. *)
Definition delete (obj : instance) : M unit :=
  λ w, (Ok (), World (base.delete (key_of obj) (db w)) (m2m w)
                     (log w ++ [EvDelete (key_of obj)])).

(** The row [r] stored under [k] references the record with key [pk]
    through the relation [d]. *)
Definition references (d : related_object) (pk : Z)
    (k : string * Z) (r : gmap string value) : Prop :=
  k.1 = ro_model d ∧ r !! ro_field_name d = Some (VInt pk).

#[global] Instance references_dec d pk k r : Decision (references d pk k r).
Proof. unfold references. apply _. Defined.

Definition load (kr : string * Z * gmap string value) : instance :=
  Instance kr.1.1 kr.1.2 kr.2.

(** The records that reference [obj] through [d], freshly loaded. *)
Definition related_rows (d : related_object) (obj : instance) (w : world) : list instance :=
  load <$> map_to_list (filter (λ kr, references d (i_pk obj) kr.1 kr.2) (db w)).

(** [hasattr(obj, accessor)] for a to-many accessor: the attribute is the
    manager installed on the class, present unless the relation is hidden. *)
Definition hasattr_manager (d : related_object) (obj : instance) : bool :=
  negb (ro_hidden d).

(** [getattr(obj, accessor).all()] for a to-many accessor. *)
Definition manager_all (d : related_object) (obj : instance) : M (list instance) :=
  λ w, (Ok (related_rows d obj w), w).

(** The record linked to [obj] through the one-to-one relation [d]: reading
    the accessor succeeds when exactly one record references [obj]. *)
Definition one_to_one_related (d : related_object) (obj : instance) (w : world) : option instance :=
  if ro_hidden d then None
  else match related_rows d obj w with
       | [r] => Some r
       | _ => None
       end.

(** [hasattr(obj, accessor)] for a one-to-one accessor. *)
Definition hasattr_one_to_one (d : related_object) (obj : instance) : M bool :=
  λ w, (Ok (bool_decide (is_Some (one_to_one_related d obj w))), w).

(** [getattr(obj, accessor)] for a one-to-one accessor. *)
Definition getattr_one_to_one (d : related_object) (obj : instance) : M instance :=
  λ w, match one_to_one_related d obj w with
       | Some r => (Ok r, w)
       | None => (Raise (AttributeError (ro_accessor_name d)), w)
       end.

(** A many-to-many relation without reverse accessor is symmetrical. *)
Definition rm_symmetrical (d : related_many) : bool :=
  bool_decide (rm_accessor_name d = None).

Definition link (d : related_many) (from to : Z) : string * string * Z * Z :=
  (rm_model d, rm_field_name d, from, to).

(** The keys linked to [pk]: the sources of the links that end in [pk] when
    [reverse], the targets of the links that start from [pk] otherwise. *)
Definition linked_keys (d : related_many) (reverse : bool) (pk : Z)
    (links : list (string * string * Z * Z)) : list Z :=
  omap (λ l, let '(m, f, x, y) := l in
             if bool_decide (m = rm_model d ∧ f = rm_field_name d)
             then if reverse
                  then (if bool_decide (y = pk) then Some x else None)
                  else (if bool_decide (x = pk) then Some y else None)
             else None) links.

(** [getattr(obj, name).all()] for a many-to-many manager: the stored records
    of the declaring model that are linked to [obj]. *)
Definition many_manager_all (d : related_many) (reverse : bool) (obj : instance) : M (list instance) :=
  λ w, (Ok (omap (λ x, r ← db w !! (rm_model d, x); Some (Instance (rm_model d) x r))
                 (linked_keys d reverse (i_pk obj) (elements (m2m w)))), w).

(** The links a call on the manager [getattr(obj, field)] concerns: the link
    from [obj] to [target] and, for a symmetrical relation, its mirror. *)
Definition links_of (d : related_many) (obj target : instance) : list (string * string * Z * Z) :=
  link d (i_pk obj) (i_pk target)
  :: (if rm_symmetrical d then [link d (i_pk target) (i_pk obj)] else []).

(** [getattr(obj, field).remove(target)] *)
Definition many_remove (d : related_many) (obj target : instance) : M unit :=
  λ w, (Ok (), World (db w) (m2m w ∖ list_to_set (links_of d obj target))
                     (log w ++ (EvRemove <$> links_of d obj target))).

(** [getattr(obj, field).add(target)] *)
Definition many_add (d : related_many) (obj target : instance) : M unit :=
  λ w, (Ok (), World (db w) (m2m w ∪ list_to_set (links_of d obj target))
                     (log w ++ (EvAdd <$> links_of d obj target))).

(** [@transaction.atomic]: when the body raises, the writes it made are
    rolled back; the trace keeps the calls that were issued. *)
Definition transaction_atomic {A : Type} (body : M A) : M A :=
  λ w, match body w with
       | (Ok a, w') => (Ok a, w')
       | (Raise e, w') => (Raise e, World (db w) (m2m w) (log w'))
       end.

(** ** The registry lookups *)

Section Merge.
Context (sch : schema).

Definition find_class (c : string) : option model_class :=
  find (λ mc, bool_decide (c_name mc = c)) sch.

(** The class itself followed by its ancestors. *)
Definition mro (c : string) : list string :=
  c :: from_option c_bases [] (find_class c).

(** [issubclass(c, base)] *)
Definition issubclass (c base : string) : bool := bool_decide (base ∈ mro c).

(** [isinstance(obj, c)] *)
Definition isinstance (obj : instance) (c : string) : bool := issubclass (i_class obj) c.

(** [obj._meta.local_fields] *)
Definition local_fields (obj : instance) : list local_field :=
  from_option c_local_fields [] (find_class (i_class obj)).

(** Modelled from the spec: [get_all_related_many_to_many_objects] is called
    by the procedure and defined nowhere in the source file; the relationship
    descriptors of a record type (many-to-many link fields) are metadata
    provided by the host mapper, queried and never mutated. *)
Definition get_all_related_many_to_many_objects (obj : instance) : list related_many :=
  from_option c_related_many_to_many [] (find_class (i_class obj)).

(** Modelled from the spec: [get_all_related_one_to_one_objects] is called by
    the procedure and defined nowhere in the source file; the one-to-one link
    descriptors of a record type are metadata provided by the host mapper. *)
Definition get_all_related_one_to_one_objects (obj : instance) : list related_object :=
  from_option c_related_one_to_one [] (find_class (i_class obj)).

(** Modelled from the spec: [get_all_related_one_to_many_objects] is called by
    the procedure and defined nowhere in the source file; the reverse
    multi-reference descriptors of a record type are metadata provided by the
    host mapper. *)
Definition get_all_related_one_to_many_objects (obj : instance) : list related_object :=
  from_option c_related_one_to_many [] (find_class (i_class obj)).

(** ** The procedure *)

Definition is_GenericForeignKey (x : string * class_attr) : bool :=
  match x.2 with AttrGenericForeignKey _ => true | AttrOther => false end.

(** Lines 37-40: every generic foreign key of every registered model. *)
Definition collect_generic_fields : list class_attr :=
  flat_map (λ model, snd <$> filter (λ x, is_GenericForeignKey x = true) (c_dict model)) sch.

(** Lines 30-32. *)
Definition check_aliases (primary_class : string) (alias_objects : list instance) : M unit :=
  for_each alias_objects (λ alias_object,
    if negb (isinstance alias_object primary_class)
    then raise (TypeError "Only models of same class can be merged")
    else ret ()).

(** Line 42, the comprehension. *)
Fixpoint blank_attnames (primary_object : instance) (fields : list local_field) : M (list string) :=
  match fields with
  | [] => ret []
  | field :: fields' =>
      val <- getattr primary_object (lf_attname field) ;;
      rest <- blank_attnames primary_object fields' ;;
      ret (if is_blank val then lf_attname field :: rest else rest)
  end.

(** Line 42. *)
Definition compute_blank_local_fields (primary_object : instance) : M (gset string) :=
  names <- blank_attnames primary_object (local_fields primary_object) ;;
  ret (list_to_set names).

(** Lines 56-58 and 90-92: re-point the loaded records and persist each. *)
Definition repoint_all (related_objects : list instance) (obj_varname : string)
    (primary_object : instance) : M unit :=
  for_each related_objects (λ obj, save (set_reference obj obj_varname primary_object)).

(** Lines 55 and 89: the records the accessor yields, none when the alias
    has no such attribute. *)
Definition related_objects (related_object : related_object) (alias_object : instance)
    : M (list instance) :=
  if hasattr_manager related_object alias_object
  then manager_all related_object alias_object
  else ret [].

(** Lines 52-58 and 87-92: the body run for one to-many descriptor. *)
Definition migrate_related (alias_object primary_object : instance)
    (related_object : related_object) : M unit :=
  let obj_varname := ro_field_name related_object in
  objs <- related_objects related_object alias_object ;;
  repoint_all objs obj_varname primary_object.

(** Lines 48-58. *)
Definition migrate_local_fields (alias_object primary_object : instance) : M unit :=
  for_each (local_fields alias_object) (λ related_object,
    if lf_auto related_object then ret ()
    else match lf_rel related_object with
         | None => raise (AttributeError "get_accessor_name")
         | Some rel => migrate_related alias_object primary_object rel
         end).

(** Lines 61-73. *)
Definition migrate_many_to_many (alias_object primary_object : instance) : M unit :=
  for_each (get_all_related_many_to_many_objects alias_object) (λ related_many_object,
    related_many_objects <-
      (match rm_accessor_name related_many_object with
       | Some _ => many_manager_all related_many_object true alias_object
       | None => many_manager_all related_many_object false alias_object
       end) ;;
    for_each related_many_objects (λ obj,
      many_remove related_many_object obj alias_object ;;
      many_add related_many_object obj primary_object)).

(** Lines 77-83: the body run for one one-to-one descriptor. *)
Definition migrate_one_to_one_related (alias_object primary_object : instance)
    (related_one_alias_object : related_object) : M unit :=
  let obj_varname := ro_field_name related_one_alias_object in
  alias_has <- hasattr_one_to_one related_one_alias_object alias_object ;;
  primary_has <- (if alias_has
                  then hasattr_one_to_one related_one_alias_object primary_object
                  else ret false) ;;
  if alias_has && negb primary_has
  then related_alias_object <- getattr_one_to_one related_one_alias_object alias_object ;;
       save (set_reference related_alias_object obj_varname primary_object)
  else ret ().

(** Lines 76-83. *)
Definition migrate_one_to_one (alias_object primary_object : instance) : M unit :=
  for_each (get_all_related_one_to_one_objects alias_object)
           (migrate_one_to_one_related alias_object primary_object).

(** Lines 86-92. *)
Definition migrate_one_to_many (alias_object primary_object : instance) : M unit :=
  for_each (get_all_related_one_to_many_objects alias_object)
           (migrate_related alias_object primary_object).

(** Lines 96-100: the loop over the blank fields, carrying the primary object
    and [filled_up]. *)
Definition fill_missing_field (alias_object : instance) (field_name : string)
    (st : instance * gset string) : M (instance * gset string) :=
  val <- getattr alias_object field_name ;;
  if is_blank val then ret st
  else ret (setattr st.1 field_name val, {[field_name]} ∪ st.2).

(** Lines 95-101. *)
Definition fill_missing_values (alias_object : instance)
    (st : instance * gset string) : M (instance * gset string) :=
  st' <- for_fold (elements st.2) (fill_missing_field alias_object) (st.1, ∅) ;;
  ret (st'.1, st.2 ∖ st'.2).

(** Lines 45-104, the body run for one alias; it carries the primary object
    and [blank_local_fields]. *)
Definition merge_alias (migrate_data keep_old : bool) (alias_object : instance)
    (st : instance * gset string) : M (instance * gset string) :=
  let primary_object := st.1 in
  (if migrate_data then migrate_local_fields alias_object primary_object else ret ()) ;;
  migrate_many_to_many alias_object primary_object ;;
  migrate_one_to_one alias_object primary_object ;;
  migrate_one_to_many alias_object primary_object ;;
  st' <- fill_missing_values alias_object st ;;
  (if negb keep_old then delete alias_object else ret ()) ;;
  ret st'.

(** The [alias_objects] argument: a list, or anything else. *)
Inductive alias_arg : Type :=
| AList (l : list instance)
| AObject (obj : instance).

(** Lines 20-21: anything that is not a list is wrapped into one. *)
Definition as_list (alias_objects : alias_arg) : list instance :=
  match alias_objects with
  | AList l => l
  | AObject obj => [obj]
  end.

(** Lines 20-106, the undecorated function. *)
Definition merge_model_objects_body (primary_object : instance) (alias_objects : alias_arg)
    (migrate_data keep_old : bool) : M instance :=
  let alias_objects := as_list alias_objects in
  let primary_class := i_class primary_object in
  if negb (issubclass primary_class Model)
  then raise (TypeError "Only django.db.models.Model subclasses can be merged")
  else
    check_aliases primary_class alias_objects ;;
    let generic_fields := collect_generic_fields in
    blank_local_fields <- compute_blank_local_fields primary_object ;;
    st <- for_fold alias_objects (merge_alias migrate_data keep_old)
                   (primary_object, blank_local_fields) ;;
    let primary_object := st.1 in
    save primary_object ;;
    ret primary_object.

(** Lines 7-106. *)
Definition merge_model_objects (primary_object : instance) (alias_objects : alias_arg)
    (migrate_data keep_old : bool) : M instance :=
  transaction_atomic (merge_model_objects_body primary_object alias_objects migrate_data keep_old).

End Merge.

(** * A small registry and store used for the examples *)

Module Fixture.

(** Books point at their author and at their publisher, profiles belong to
    one person, clubs have many members, persons befriend persons, and a tag
    can be attached to any record through a generic foreign key. *)
Definition book_author : related_object := RelatedObject "Book" "author" "book_set" false.
Definition book_publisher : related_object := RelatedObject "Book" "publisher" "books" false.
Definition profile_person : related_object := RelatedObject "Profile" "person" "profile" false.
Definition address_publisher : related_object :=
  RelatedObject "Address" "publisher" "address" false.
Definition club_members : related_many := RelatedMany "Club" "members" (Some "club_set").
Definition person_friends : related_many := RelatedMany "Person" "friends" None.
Definition tag_target : generic_foreign_key :=
  GenericForeignKey "TaggedItem" "content_object" "content_type" "object_id".

Definition person_fields : list local_field :=
  [LocalField "id" true None; LocalField "name" false None; LocalField "email" false None].

Definition Person : model_class :=
  ModelClass "Person" [Model; "object"] [] person_fields
             [club_members; person_friends] [profile_person] [book_author].

Definition Employee : model_class :=
  ModelClass "Employee" ["Person"; Model; "object"] [] person_fields
             [club_members; person_friends] [profile_person] [book_author].

Definition Publisher : model_class :=
  ModelClass "Publisher" [Model; "object"] []
             [LocalField "id" true None; LocalField "imprint" false (Some book_publisher)]
             [] [address_publisher] [].

Definition Club : model_class :=
  ModelClass "Club" [Model; "object"] [] [LocalField "id" true None] [] [] [].

Definition TaggedItem : model_class :=
  ModelClass "TaggedItem" [Model; "object"]
             [("content_object", AttrGenericForeignKey tag_target); ("__module__", AttrOther)]
             [] [] [] [].

Definition registry : schema := [Person; Employee; Publisher; Club; TaggedItem].

Definition person (pk : Z) (name email : value) : instance :=
  Instance "Person" pk (list_to_map [("id", VInt pk); ("name", name); ("email", email)]).

Definition ann : instance := person 1 (VStr "Ann") VNone.
Definition annie : instance := person 2 (VStr "Annie") (VStr "annie@example.com").
Definition anne : instance := person 3 (VStr "Anne") (VStr "anne@example.com").
Definition nameless : instance := person 4 (VStr EmptyString) VNone.
Definition ann_employee : instance :=
  Instance "Employee" 5 (list_to_map [("id", VInt 5); ("name", VStr "Ann"); ("email", VNone)]).
Definition acme : instance :=
  Instance "Publisher" 1 (list_to_map [("id", VInt 1); ("imprint", VNone)]).
Definition acme_dup : instance :=
  Instance "Publisher" 2 (list_to_map [("id", VInt 2); ("imprint", VStr "Acme Books")]).
Definition chess_club : instance := Instance "Club" 30 (list_to_map [("id", VInt 30)]).
Definition chess_club_dup : instance := Instance "Club" 31 (list_to_map [("id", VInt 31)]).
Definition not_a_model : instance := Instance "dict" 0 ∅.

Definition rows : gmap (string * Z) (gmap string value) :=
  list_to_map
    [(key_of ann, i_attrs ann); (key_of annie, i_attrs annie); (key_of anne, i_attrs anne);
     (key_of nameless, i_attrs nameless); (key_of ann_employee, i_attrs ann_employee);
     (key_of acme, i_attrs acme); (key_of acme_dup, i_attrs acme_dup);
     (("Book", 10%Z), list_to_map [("author", VInt 2); ("publisher", VInt 2)]);
     (("Book", 11%Z), list_to_map [("author", VInt 3); ("publisher", VInt 1)]);
     (("Profile", 20%Z), list_to_map [("person", VInt 1)]);
     (("Profile", 21%Z), list_to_map [("person", VInt 2)]);
     (("Profile", 22%Z), list_to_map [("person", VInt 3)]);
     (key_of chess_club, i_attrs chess_club); (key_of chess_club_dup, i_attrs chess_club_dup);
     (("Address", 50%Z), list_to_map [("publisher", VInt 1)]);
     (("Address", 51%Z), list_to_map [("publisher", VInt 2)]);
     (("TaggedItem", 40%Z),
      list_to_map [("content_type", VStr "Person"); ("object_id", VInt 2)]);
     (("TaggedItem", 41%Z),
      list_to_map [("content_type", VStr "Publisher"); ("object_id", VInt 2)])].

Definition links : gset (string * string * Z * Z) :=
  {[ ("Club", "members", 30%Z, 2%Z); ("Person", "friends", 2%Z, 3%Z);
     ("Person", "friends", 3%Z, 2%Z) ]}.

Definition store : world := World rows links [].

End Fixture.

(** * A minimal registry and store for the examples that follow *)

Module Tiny.

(** Records [P] are merged.  Records [B] and [L] point at one [P] each,
    records [Q] belong to one [P], records [C] have many [P] as members,
    [P] records befriend each other, and records [T] point at any record
    through a generic foreign key. *)
Definition b_of : related_object := RelatedObject "B" "p" "bs" false.
Definition l_of : related_object := RelatedObject "L" "p" "ls" false.
Definition q_of : related_object := RelatedObject "Q" "p" "q" false.
Definition c_of : related_many := RelatedMany "C" "m" (Some "cs").
Definition f_of : related_many := RelatedMany "P" "f" None.

Definition P : model_class :=
  ModelClass "P" [Model] []
             [LocalField "id" true None; LocalField "n" false (Some l_of)]
             [c_of; f_of] [q_of] [b_of].

Definition T : model_class :=
  ModelClass "T" [Model] [("o", AttrGenericForeignKey (GenericForeignKey "T" "o" "ct" "oid"))]
             [] [] [] [].

Definition registry : schema := [P; T].

Definition p1 : instance := Instance "P" 1 (list_to_map [("id", VInt 1); ("n", VNone)]).
Definition p2 : instance := Instance "P" 2 (list_to_map [("id", VInt 2); ("n", VStr "x")]).
Definition p3 : instance := Instance "P" 3 (list_to_map [("id", VInt 3); ("n", VStr "y")]).

Definition rows : gmap (string * Z) (gmap string value) :=
  list_to_map
    [(key_of p1, i_attrs p1); (key_of p2, i_attrs p2); (key_of p3, i_attrs p3);
     (("B", 4%Z), {["p" := VInt 2]}); (("L", 5%Z), {["p" := VInt 2]});
     (("Q", 6%Z), {["p" := VInt 1]}); (("Q", 7%Z), {["p" := VInt 2]});
     (("C", 8%Z), ∅);
     (("T", 9%Z), list_to_map [("ct", VStr "P"); ("oid", VInt 2)])].

Definition links : gset (string * string * Z * Z) :=
  {[ ("C", "m", 8%Z, 2%Z); ("P", "f", 2%Z, 3%Z); ("P", "f", 3%Z, 2%Z) ]}.

Definition store : world := World rows links [].

End Tiny.

(** What a run returns, or [default] when it raises. *)
Definition returned {A : Type} (default : A) (r : result A * world) : A :=
  match r.1 with
  | Ok a => a
  | Raise _ => default
  end.

(** Settle an equation between closed terms by evaluating its two sides. *)
Ltac evaluate :=
  lazymatch goal with
  | |- ?x = ?y => vm_cast_no_check (@eq_refl _ y)
  end.

(** * Reasoning about the monad *)

Lemma bind_Ok {A B : Type} (m : M A) (k : A → M B) (w w' : world) (b : B) :
  bind m k w = (Ok b, w') ↔ ∃ a w1, m w = (Ok a, w1) ∧ k a w1 = (Ok b, w').
Proof.
  unfold bind. destruct (m w) as [[a|e] w1]; split.
  - eauto.
  - intros (a' & w1' & Heq & Hk). by simplify_eq.
  - done.
  - intros (a' & w1' & Heq & Hk). simplify_eq.
Qed.

Lemma ret_Ok {A : Type} (a b : A) (w w' : world) :
  ret a w = (Ok b, w') ↔ a = b ∧ w = w'.
Proof. unfold ret. split; [by intros [= -> ->] | by intros [-> ->]]. Qed.

Lemma raise_Ok {A : Type} (e : exn) (b : A) (w w' : world) :
  raise e w = (Ok b, w') ↔ False.
Proof. unfold raise. split; [by intros [=] | done]. Qed.

Lemma getattr_Ok (obj : instance) (name : string) (w w' : world) (v : value) :
  getattr obj name w = (Ok v, w') ↔ i_attrs obj !! name = Some v ∧ w = w'.
Proof.
  unfold getattr. destruct (i_attrs obj !! name) as [v'|]; split.
  - by intros [= -> ->].
  - by intros [[= ->] ->].
  - done.
  - by intros [? _].
Qed.

Lemma transaction_atomic_Ok {A : Type} (body : M A) (w w' : world) (a : A) :
  transaction_atomic body w = (Ok a, w') → body w = (Ok a, w').
Proof. unfold transaction_atomic. by destruct (body w) as [[a'|e] w1]. Qed.


Lemma bind_cong {A B : Type} (m m' : M A) (k k' : A → M B) (w : world) :
  m w = m' w → (∀ a w1, k a w1 = k' a w1) → bind m k w = bind m' k' w.
Proof.
  intros Hm Hk. unfold bind. rewrite Hm.
  destruct (m' w) as [[a|e] w1]; [apply Hk | done].
Qed.

(** Break a successful run into the successful runs of its parts. *)
Ltac inv_run :=
  repeat match goal with
  | H : bind _ _ _ = (Ok _, _) |- _ =>
      apply bind_Ok in H; destruct H as (? & ? & ? & H)
  | H : ret _ _ = (Ok _, _) |- _ =>
      apply ret_Ok in H; destruct H as [? ?]; subst
  | H : raise _ _ = (Ok _, _) |- _ => by apply raise_Ok in H
  | H : getattr _ _ _ = (Ok _, _) |- _ =>
      apply getattr_Ok in H; destruct H as [H ?]; subst
  | H : transaction_atomic _ _ = (Ok _, _) |- _ =>
      apply transaction_atomic_Ok in H
  end.

(** * Validation *)

Section Validation.
Context (sch : schema).

Lemma check_aliases_pass (c : string) (aliases : list instance) (w : world) :
  Forall (λ a, isinstance sch a c = true) aliases →
  check_aliases sch c aliases w = (Ok (), w).
Proof.
  unfold check_aliases. induction 1 as [|a l Ha _ IH]; [done|].
  simpl. unfold bind. by rewrite Ha.
Qed.


Lemma blank_attnames_total (obj : instance) (fields : list local_field) (w : world) :
  Forall (λ f, is_Some (i_attrs obj !! lf_attname f)) fields →
  ∃ names, blank_attnames obj fields w = (Ok names, w).
Proof.
  induction 1 as [|f l [v Hv] _ [names IH]]; [by eexists|].
  simpl. unfold bind, getattr. rewrite Hv, IH. by eexists.
Qed.

End Validation.

(** * Which exceptions can be raised *)

(** A computation that raises nothing but [AttributeError]. *)
Definition only_AttributeError {A : Type} (m : M A) : Prop :=
  ∀ w e w', m w = (Raise e, w') → ∃ name, e = AttributeError name.

Create HintDb exn_db.

Lemma only_attr_ret {A : Type} (a : A) : only_AttributeError (ret a).
Proof. by intros w e w' [=]. Qed.

Lemma only_attr_raise {A : Type} (name : string) :
  only_AttributeError (@raise A (AttributeError name)).
Proof. intros w e w' [= <- _]. by eexists. Qed.

Lemma only_attr_bind {A B : Type} (m : M A) (k : A → M B) :
  only_AttributeError m → (∀ a, only_AttributeError (k a)) →
  only_AttributeError (bind m k).
Proof.
  intros Hm Hk w e w'. unfold bind.
  destruct (m w) as [[a|e1] w1] eqn:Hmw.
  - apply Hk.
  - intros [= <- <-]. by eapply Hm.
Qed.

Lemma only_attr_for_each {A : Type} (l : list A) (body : A → M unit) :
  (∀ x, only_AttributeError (body x)) → only_AttributeError (for_each l body).
Proof.
  intros Hbody. induction l as [|x l IH]; simpl.
  - apply only_attr_ret.
  - apply only_attr_bind; auto.
Qed.

Lemma only_attr_for_fold {A S : Type} (l : list A) (body : A → S → M S) (s : S) :
  (∀ x s', only_AttributeError (body x s')) → only_AttributeError (for_fold l body s).
Proof.
  intros Hbody. revert s. induction l as [|x l IH]; intros s; simpl.
  - apply only_attr_ret.
  - apply only_attr_bind; auto.
Qed.

Lemma only_attr_getattr (obj : instance) (name : string) :
  only_AttributeError (getattr obj name).
Proof.
  intros w e w'. unfold getattr. destruct (i_attrs obj !! name); intros [=]; subst.
  by eexists.
Qed.

Lemma only_attr_if {A : Type} (b : bool) (m1 m2 : M A) :
  only_AttributeError m1 → only_AttributeError m2 →
  only_AttributeError (if b then m1 else m2).
Proof. by destruct b. Qed.

#[global] Hint Resolve only_attr_ret only_attr_raise only_attr_getattr : exn_db.

(** The calls into the store never raise. *)
Ltac solve_total := by intros w e w' [=].

Lemma only_attr_save (obj : instance) : only_AttributeError (save obj).
Proof. solve_total. Qed.

Lemma only_attr_delete (obj : instance) : only_AttributeError (delete obj).
Proof. solve_total. Qed.

Lemma only_attr_manager_all (d : related_object) (obj : instance) :
  only_AttributeError (manager_all d obj).
Proof. solve_total. Qed.

Lemma only_attr_many_manager_all (d : related_many) (reverse : bool) (obj : instance) :
  only_AttributeError (many_manager_all d reverse obj).
Proof. solve_total. Qed.

Lemma only_attr_many_remove (d : related_many) (obj target : instance) :
  only_AttributeError (many_remove d obj target).
Proof. solve_total. Qed.

Lemma only_attr_many_add (d : related_many) (obj target : instance) :
  only_AttributeError (many_add d obj target).
Proof. solve_total. Qed.

Lemma only_attr_hasattr_one_to_one (d : related_object) (obj : instance) :
  only_AttributeError (hasattr_one_to_one d obj).
Proof. solve_total. Qed.

Lemma only_attr_getattr_one_to_one (d : related_object) (obj : instance) :
  only_AttributeError (getattr_one_to_one d obj).
Proof.
  intros w e w'. unfold getattr_one_to_one.
  destruct (one_to_one_related d obj w); intros [=]; subst. by eexists.
Qed.

#[global] Hint Resolve only_attr_save only_attr_delete only_attr_manager_all
  only_attr_many_manager_all only_attr_many_remove only_attr_many_add
  only_attr_hasattr_one_to_one only_attr_getattr_one_to_one : exn_db.

Ltac only_attr :=
  repeat first
    [ progress eauto with exn_db
    | apply only_attr_bind; [|intros ?]
    | apply only_attr_for_each; intros ?
    | apply only_attr_for_fold; intros ? ?
    | apply only_attr_if
    | match goal with |- only_AttributeError (match ?x with _ => _ end) => destruct x end ].

Section Exceptions.
Context (sch : schema).

Lemma only_attr_merge_alias (md ko : bool) (a : instance) (st : instance * gset string) :
  only_AttributeError (merge_alias sch md ko a st).
Proof.
  unfold merge_alias, migrate_local_fields, migrate_many_to_many, migrate_one_to_one,
    migrate_one_to_many, migrate_one_to_one_related, migrate_related, related_objects,
    repoint_all, fill_missing_values, fill_missing_field.
  only_attr.
Qed.

Lemma only_attr_blank_attnames (obj : instance) (fields : list local_field) :
  only_AttributeError (blank_attnames obj fields).
Proof. induction fields as [|f l IH]; simpl; only_attr. Qed.

(** Past the two checks, no [TypeError] is raised. *)
Lemma only_attr_after_validation (p : instance) (aliases : list instance) (md ko : bool) :
  only_AttributeError
    (blank_local_fields <- compute_blank_local_fields sch p ;;
     st <- for_fold aliases (merge_alias sch md ko) (p, blank_local_fields) ;;
     save st.1 ;; ret st.1).
Proof.
  unfold compute_blank_local_fields.
  pose proof only_attr_merge_alias. pose proof only_attr_blank_attnames.
  only_attr.
Qed.

End Exceptions.

(** * The two checks, and merging no alias *)

Section Checks.
Context (sch : schema).

Lemma body_after_validation (p : instance) (aliases : alias_arg) (md ko : bool) (w : world) :
  issubclass sch (i_class p) Model = true →
  Forall (λ a, isinstance sch a (i_class p) = true) (as_list aliases) →
  merge_model_objects_body sch p aliases md ko w
  = (blank_local_fields <- compute_blank_local_fields sch p ;;
     st <- for_fold (as_list aliases) (merge_alias sch md ko) (p, blank_local_fields) ;;
     save st.1 ;; ret st.1) w.
Proof.
  intros Hp Hal. unfold merge_model_objects_body. rewrite Hp. simpl.
  unfold bind at 1. by rewrite check_aliases_pass.
Qed.


(** C9: aliases whose class is a strict subclass of the class of the primary
    object pass the check: the loop of line 30 completes, the call goes on
    to the migration, and no [TypeError] comes out of it. *)
Theorem subclass_aliases_accepted (p : instance) (aliases : list instance)
    (md ko : bool) (w : world) :
  issubclass sch (i_class p) Model = true →
  Forall (λ a, i_class a ≠ i_class p ∧ issubclass sch (i_class a) (i_class p) = true)
         aliases →
  check_aliases sch (i_class p) aliases w = (Ok (), w)
  ∧ merge_model_objects_body sch p (AList aliases) md ko w
    = (blank_local_fields <- compute_blank_local_fields sch p ;;
       st <- for_fold aliases (merge_alias sch md ko) (p, blank_local_fields) ;;
       save st.1 ;; ret st.1) w
  ∧ ∀ msg, (merge_model_objects sch p (AList aliases) md ko w).1 ≠ Raise (TypeError msg).
Proof.
  intros Hp Hal.
  assert (Forall (λ a, isinstance sch a (i_class p) = true) aliases) as Hinst.
  { eapply Forall_impl; [exact Hal|]. by intros a [_ ?]. }
  split; [by apply check_aliases_pass|].
  split; [by apply body_after_validation|].
  intros msg. unfold merge_model_objects, transaction_atomic.
  rewrite (body_after_validation p (AList aliases)) by done. simpl.
  match goal with |- context [?m w] => destruct (m w) as [[p'|e] w'] eqn:Hrun end;
    simpl; [done|].
  apply only_attr_after_validation in Hrun as [name ->]. done.
Qed.

(** C3: merging no alias returns the primary object as it was given and
    saves it once; that save is the only persistence call, and no other
    record and no link changes. *)
Theorem merge_no_alias (p : instance) (md ko : bool) (w : world) :
  issubclass sch (i_class p) Model = true →
  Forall (λ f, is_Some (i_attrs p !! lf_attname f)) (local_fields sch p) →
  merge_model_objects sch p (AList []) md ko w
  = (Ok p, World (<[key_of p := i_attrs p]> (db w)) (m2m w)
                 (log w ++ [EvSave (key_of p) (i_attrs p)])).
Proof.
  intros Hp Hattrs. unfold merge_model_objects, transaction_atomic.
  rewrite body_after_validation by (done || constructor).
  unfold compute_blank_local_fields. simpl.
  destruct (blank_attnames_total p _ w Hattrs) as [names Hnames].
  unfold bind. by rewrite Hnames.
Qed.

End Checks.



Lemma subclass_aliases_accepted_witness :
  check_aliases Fixture.registry (i_class Fixture.ann) [Fixture.ann_employee] Fixture.store
  = (Ok (), Fixture.store)
  ∧ ∀ msg, (merge_model_objects Fixture.registry Fixture.ann (AList [Fixture.ann_employee])
                                false true Fixture.store).1 ≠ Raise (TypeError msg).
Proof.
  destruct (subclass_aliases_accepted Fixture.registry Fixture.ann [Fixture.ann_employee]
              false true Fixture.store) as (H1 & _ & H3).
  - vm_compute. reflexivity.
  - constructor; [|constructor]. split; [discriminate | vm_compute; reflexivity].
  - split; [exact H1 | exact H3].
Defined.

Lemma merge_no_alias_witness :
  merge_model_objects Fixture.registry Fixture.ann (AList []) true false Fixture.store
  = (Ok Fixture.ann,
     World (<[key_of Fixture.ann := i_attrs Fixture.ann]> (db Fixture.store))
           (m2m Fixture.store)
           (log Fixture.store ++ [EvSave (key_of Fixture.ann) (i_attrs Fixture.ann)])).
Proof.
  apply merge_no_alias.
  - vm_compute. reflexivity.
  - repeat constructor; vm_compute; eexists; reflexivity.
Defined.

(** * Back-fill *)

Lemma fill_missing_field_Ok (a : instance) (f : string) (st st' : instance * gset string)
    (w w' : world) :
  fill_missing_field a f st w = (Ok st', w') →
  w' = w ∧ ∃ v, i_attrs a !! f = Some v
                ∧ st' = if is_blank v then st else (setattr st.1 f v, {[f]} ∪ st.2).
Proof.
  unfold fill_missing_field. intros Hrun.
  apply bind_Ok in Hrun as (v & w1 & Hget & Hrun).
  apply getattr_Ok in Hget as [Hv <-].
  destruct (is_blank v) eqn:Hb; apply ret_Ok in Hrun as [<- <-];
    (split; [done|]); exists v; by rewrite Hb.
Qed.

(** What the loop of lines 96-100 does to one field name, whatever the order
    in which the names are visited. *)
Lemma fill_loop_spec (a : instance) (l : list string) (st st' : instance * gset string)
    (w w' : world) :
  for_fold l (fill_missing_field a) st w = (Ok st', w') →
  w' = w ∧ i_class st'.1 = i_class st.1 ∧ i_pk st'.1 = i_pk st.1
  ∧ ∀ f,
      (f ∉ l → i_attrs st'.1 !! f = i_attrs st.1 !! f ∧ (f ∈ st'.2 ↔ f ∈ st.2))
      ∧ (f ∈ l → ∃ v, i_attrs a !! f = Some v
                      ∧ if is_blank v
                        then i_attrs st'.1 !! f = i_attrs st.1 !! f ∧ (f ∈ st'.2 ↔ f ∈ st.2)
                        else i_attrs st'.1 !! f = Some v ∧ f ∈ st'.2).
Proof.
  revert st w. induction l as [|x l IH]; intros st w Hrun; simpl in Hrun.
  - apply ret_Ok in Hrun as [<- <-]. repeat split; try done.
    intros Hf. by apply elem_of_nil in Hf.
  - apply bind_Ok in Hrun as (st1 & w1 & Hstep & Hrun).
    apply fill_missing_field_Ok in Hstep as (-> & val & Hval & Hst1).
    apply IH in Hrun as (-> & Hc & Hk & Hf).
    assert (i_class st1.1 = i_class st.1 ∧ i_pk st1.1 = i_pk st.1) as [Hc1 Hk1].
    { subst st1. by destruct (is_blank val). }
    split; [done|]. split; [congruence|]. split; [congruence|].
    intros f. destruct (Hf f) as [Hout Hin]. split.
    + intros Hnot. apply not_elem_of_cons in Hnot as [Hne Hnot].
      destruct (Hout Hnot) as [-> Hiff]. rewrite Hiff. subst st1.
      destruct (is_blank val); simpl; [done|].
      rewrite lookup_insert_ne by done. split; [done|].
      rewrite elem_of_union, elem_of_singleton. tauto.
    + intros Hmem. destruct (decide (f ∈ l)) as [Hl|Hl].
      * destruct (Hin Hl) as (v & Hv & Hcase). exists v. split; [done|].
        destruct (is_blank v) eqn:Hbv; [|done].
        destruct Hcase as [-> Hiff]. rewrite Hiff. subst st1.
        destruct (is_blank val) eqn:Hbval; simpl; [done|].
        destruct (decide (f = x)) as [->|Hne]; [congruence|].
        rewrite lookup_insert_ne by done. split; [done|].
        rewrite elem_of_union, elem_of_singleton. tauto.
      * apply elem_of_cons in Hmem as [->|?]; [|done].
        exists val. split; [done|]. destruct (Hout Hl) as [-> Hiff].
        subst st1. destruct (is_blank val) eqn:Hbval; simpl; [done|].
        simpl in Hiff. rewrite Hiff, lookup_insert_eq. split; [done|].
        rewrite elem_of_union, elem_of_singleton. by left.
Qed.

(** Lines 95-101 for one alias: a name outside [blank_local_fields] is left
    alone; a name inside takes the value of the alias when that value is
    not blank, and then leaves the set. *)
Lemma fill_missing_values_spec (a : instance) (st st' : instance * gset string)
    (w w' : world) :
  fill_missing_values a st w = (Ok st', w') →
  w' = w ∧ i_class st'.1 = i_class st.1 ∧ i_pk st'.1 = i_pk st.1
  ∧ ∀ f,
      (f ∉ st.2 → i_attrs st'.1 !! f = i_attrs st.1 !! f ∧ f ∉ st'.2)
      ∧ (f ∈ st.2 → ∃ v, i_attrs a !! f = Some v
                         ∧ if is_blank v
                           then i_attrs st'.1 !! f = i_attrs st.1 !! f ∧ f ∈ st'.2
                           else i_attrs st'.1 !! f = Some v ∧ f ∉ st'.2).
Proof.
  unfold fill_missing_values. intros Hrun.
  apply bind_Ok in Hrun as (st1 & w1 & Hloop & Hrun).
  apply ret_Ok in Hrun as [<- <-].
  apply fill_loop_spec in Hloop as (-> & Hc & Hk & Hf). simpl in *.
  split; [done|]. split; [done|]. split; [done|].
  intros f. destruct (Hf f) as [Hout Hin]. split.
  - intros Hnot. split; [|by rewrite elem_of_difference; intros [? _]].
    apply Hout. by rewrite elem_of_elements.
  - intros Hmem. destruct Hin as (v & Hv & Hcase); [by rewrite elem_of_elements|].
    exists v. split; [done|]. destruct (is_blank v).
    + destruct Hcase as [-> Hiff]. split; [done|].
      rewrite elem_of_difference, Hiff. split; [done|]. apply not_elem_of_empty.
    + destruct Hcase as [-> Hin']. split; [done|].
      rewrite elem_of_difference. by intros [_ ?].
Qed.

Lemma blank_attnames_spec (p : instance) (fields : list local_field)
    (names : list string) (w w' : world) :
  blank_attnames p fields w = (Ok names, w') →
  w' = w
  ∧ ∀ f, f ∈ names ↔ ∃ lf v, lf ∈ fields ∧ lf_attname lf = f
                             ∧ i_attrs p !! f = Some v ∧ is_blank v = true.
Proof.
  revert names w. induction fields as [|lf l IH]; intros names w Hrun; simpl in Hrun.
  - apply ret_Ok in Hrun as [<- <-]. split; [done|]. intros f. split.
    + intros Hf. by apply elem_of_nil in Hf.
    + intros (lf & v & Hlf & _). by apply elem_of_nil in Hlf.
  - apply bind_Ok in Hrun as (v & w1 & Hget & Hrun).
    apply getattr_Ok in Hget as [Hv <-].
    apply bind_Ok in Hrun as (rest & w2 & Hrest & Hrun).
    apply ret_Ok in Hrun as [<- <-].
    apply IH in Hrest as [-> Hrest]. split; [done|]. intros f.
    assert (f ∈ rest ↔ ∃ lf' v', lf' ∈ l ∧ lf_attname lf' = f
                                 ∧ i_attrs p !! f = Some v' ∧ is_blank v' = true)
      as Hiff by apply Hrest.
    split.
    + intros Hf. destruct (is_blank v) eqn:Hb.
      * apply elem_of_cons in Hf as [->|Hf].
        { exists lf, v. split; [apply elem_of_cons; by left | done]. }
        apply Hiff in Hf as (lf' & v' & ? & ? & ? & ?).
        exists lf', v'. split; [apply elem_of_cons; by right | done].
      * apply Hiff in Hf as (lf' & v' & ? & ? & ? & ?).
        exists lf', v'. split; [apply elem_of_cons; by right | done].
    + intros (lf' & v' & Hlf' & Hname & Hv' & Hb').
      apply elem_of_cons in Hlf' as [->|Hlf'].
      * assert (v' = v) as -> by congruence. rewrite Hb'.
        apply elem_of_cons. by left.
      * assert (f ∈ rest) by (apply Hiff; eauto 6).
        destruct (is_blank v); [apply elem_of_cons; by right | done].
Qed.

Section Backfill.
Context (sch : schema).

Lemma compute_blank_local_fields_spec (p : instance) (blank : gset string) (w w' : world) :
  compute_blank_local_fields sch p w = (Ok blank, w') →
  w' = w
  ∧ ∀ f, f ∈ blank ↔ ∃ lf v, lf ∈ local_fields sch p ∧ lf_attname lf = f
                             ∧ i_attrs p !! f = Some v ∧ is_blank v = true.
Proof.
  unfold compute_blank_local_fields. intros Hrun.
  apply bind_Ok in Hrun as (names & w1 & Hnames & Hrun).
  apply ret_Ok in Hrun as [<- <-].
  apply blank_attnames_spec in Hnames as [-> Hnames]. split; [done|].
  intros f. rewrite elem_of_list_to_set. apply Hnames.
Qed.

(** A successful run of the body of the loop of line 45, cut at its steps. *)
Lemma merge_alias_Ok (md ko : bool) (a : instance) (st st' : instance * gset string)
    (w w' : world) :
  merge_alias sch md ko a st w = (Ok st', w') ↔
  ∃ w1 w2 w3 w4 w5,
    (if md then migrate_local_fields sch a st.1 else ret ()) w = (Ok (), w1)
    ∧ migrate_many_to_many sch a st.1 w1 = (Ok (), w2)
    ∧ migrate_one_to_one sch a st.1 w2 = (Ok (), w3)
    ∧ migrate_one_to_many sch a st.1 w3 = (Ok (), w4)
    ∧ fill_missing_values a st w4 = (Ok st', w5)
    ∧ (if negb ko then delete a else ret ()) w5 = (Ok (), w').
Proof.
  unfold merge_alias. split.
  - intros Hrun.
    apply bind_Ok in Hrun as ([] & w1 & H1 & Hrun).
    apply bind_Ok in Hrun as ([] & w2 & H2 & Hrun).
    apply bind_Ok in Hrun as ([] & w3 & H3 & Hrun).
    apply bind_Ok in Hrun as ([] & w4 & H4 & Hrun).
    apply bind_Ok in Hrun as (st1 & w5 & H5 & Hrun).
    apply bind_Ok in Hrun as ([] & w6 & H6 & Hrun).
    apply ret_Ok in Hrun as [<- <-]. by exists w1, w2, w3, w4, w5.
  - intros (w1 & w2 & w3 & w4 & w5 & H1 & H2 & H3 & H4 & H5 & H6).
    apply bind_Ok. exists (), w1. split; [done|].
    apply bind_Ok. exists (), w2. split; [done|].
    apply bind_Ok. exists (), w3. split; [done|].
    apply bind_Ok. exists (), w4. split; [done|].
    apply bind_Ok. exists st', w5. split; [done|].
    apply bind_Ok. exists (), w'. by split.
Qed.

(** What one alias does to the primary object in memory and to
    [blank_local_fields]. *)
Lemma merge_alias_backfill (md ko : bool) (a : instance) (st st' : instance * gset string)
    (w w' : world) :
  merge_alias sch md ko a st w = (Ok st', w') →
  i_class st'.1 = i_class st.1 ∧ i_pk st'.1 = i_pk st.1
  ∧ ∀ f,
      (f ∉ st.2 → i_attrs st'.1 !! f = i_attrs st.1 !! f ∧ f ∉ st'.2)
      ∧ (f ∈ st.2 → ∃ v, i_attrs a !! f = Some v
                         ∧ if is_blank v
                           then i_attrs st'.1 !! f = i_attrs st.1 !! f ∧ f ∈ st'.2
                           else i_attrs st'.1 !! f = Some v ∧ f ∉ st'.2).
Proof.
  intros Hrun. apply merge_alias_Ok in Hrun as (? & ? & ? & ? & ? & _ & _ & _ & _ & Hfill & _).
  by apply fill_missing_values_spec in Hfill as (_ & ? & ? & ?).
Qed.

(** A field outside [blank_local_fields] keeps its value through the loop. *)
Lemma aliases_keep_settled_field (md ko : bool) (aliases : list instance)
    (st st' : instance * gset string) (w w' : world) (f : string) :
  for_fold aliases (merge_alias sch md ko) st w = (Ok st', w') →
  f ∉ st.2 →
  i_attrs st'.1 !! f = i_attrs st.1 !! f ∧ f ∉ st'.2.
Proof.
  revert st w. induction aliases as [|a l IH]; intros st w Hrun Hf; simpl in Hrun.
  - by apply ret_Ok in Hrun as [<- <-].
  - apply bind_Ok in Hrun as (st1 & w1 & Hstep & Hrun).
    apply merge_alias_backfill in Hstep as (_ & _ & Hstep).
    destruct (Hstep f) as [Hout _]. destruct (Hout Hf) as [Heq Hf1].
    destruct (IH _ _ Hrun Hf1) as [-> ?]. by rewrite Heq.
Qed.

(** Aliases whose value is blank leave a blank field of the primary object
    as it is, and still to be filled. *)
Lemma aliases_skip_blank_field (md ko : bool) (aliases : list instance)
    (st st' : instance * gset string) (w w' : world) (f : string) :
  for_fold aliases (merge_alias sch md ko) st w = (Ok st', w') →
  f ∈ st.2 →
  Forall (λ b, ∀ vb, i_attrs b !! f = Some vb → is_blank vb = true) aliases →
  i_attrs st'.1 !! f = i_attrs st.1 !! f ∧ f ∈ st'.2.
Proof.
  revert st w. induction aliases as [|a l IH]; intros st w Hrun Hf Hblank; simpl in Hrun.
  - by apply ret_Ok in Hrun as [<- <-].
  - apply bind_Ok in Hrun as (st1 & w1 & Hstep & Hrun).
    apply Forall_cons in Hblank as [Ha Hl].
    apply merge_alias_backfill in Hstep as (_ & _ & Hstep).
    destruct (Hstep f) as [_ Hin]. destruct (Hin Hf) as (v & Hv & Hcase).
    rewrite (Ha v Hv) in Hcase. destruct Hcase as [Heq Hf1].
    destruct (IH _ _ Hrun Hf1 Hl) as [-> ?]. by rewrite Heq.
Qed.

Lemma for_fold_app {A S : Type} (l1 l2 : list A) (body : A → S → M S) (s s' : S)
    (w w' : world) :
  for_fold (l1 ++ l2) body s w = (Ok s', w') ↔
  ∃ s1 w1, for_fold l1 body s w = (Ok s1, w1) ∧ for_fold l2 body s1 w1 = (Ok s', w').
Proof.
  revert s w. induction l1 as [|x l1 IH]; intros s w; simpl.
  - split.
    + intros Hrun. by exists s, w.
    + by intros (s1 & w1 & [<- <-]%ret_Ok & Hrun).
  - rewrite bind_Ok. split.
    + intros (s0 & w0 & Hx & Hrun). apply IH in Hrun as (s1 & w1 & H1 & H2).
      exists s1, w1. split; [|done]. apply bind_Ok. by exists s0, w0.
    + intros (s1 & w1 & Hrun & H2). apply bind_Ok in Hrun as (s0 & w0 & Hx & H1).
      exists s0, w0. split; [done|]. apply IH. by exists s1, w1.
Qed.

(** A successful call, cut into its parts. *)
Lemma merge_model_objects_Ok (p p' : instance) (aliases : alias_arg) (md ko : bool)
    (w w' : world) :
  merge_model_objects sch p aliases md ko w = (Ok p', w') →
  ∃ blank st w1,
    compute_blank_local_fields sch p w = (Ok blank, w)
    ∧ for_fold (as_list aliases) (merge_alias sch md ko) (p, blank) w = (Ok st, w1)
    ∧ p' = st.1
    ∧ save st.1 w1 = (Ok (), w').
Proof.
  unfold merge_model_objects. intros Hrun%transaction_atomic_Ok.
  unfold merge_model_objects_body in Hrun.
  destruct (issubclass sch (i_class p) Model); simpl in Hrun; [|by apply raise_Ok in Hrun].
  apply bind_Ok in Hrun as ([] & w0 & Hcheck & Hrun).
  assert (w0 = w) as ->.
  { clear Hrun. unfold check_aliases in Hcheck. revert Hcheck.
    induction (as_list aliases) as [|a l IH]; simpl.
    - by intros [_ ->]%ret_Ok.
    - intros Hrun. apply bind_Ok in Hrun as ([] & w1 & Ha & Hrun).
      destruct (negb _); [by apply raise_Ok in Ha|].
      apply ret_Ok in Ha as [_ <-]. by apply IH. }
  apply bind_Ok in Hrun as (blank & w1 & Hblank & Hrun).
  pose proof (compute_blank_local_fields_spec _ _ _ _ Hblank) as [-> _].
  apply bind_Ok in Hrun as (st & w2 & Hloop & Hrun).
  apply bind_Ok in Hrun as ([] & w3 & Hsave & Hrun).
  apply ret_Ok in Hrun as [<- <-].
  by exists blank, st, w2.
Qed.

End Backfill.

Section BackfillClaims.
Context (sch : schema).

Lemma aliases_keep_identity (md ko : bool) (aliases : list instance)
    (st st' : instance * gset string) (w w' : world) :
  for_fold aliases (merge_alias sch md ko) st w = (Ok st', w') →
  key_of st'.1 = key_of st.1.
Proof.
  revert st w. induction aliases as [|a l IH]; intros st w Hrun; simpl in Hrun.
  - by apply ret_Ok in Hrun as [<- <-].
  - apply bind_Ok in Hrun as (st1 & w1 & Hstep & Hrun).
    apply merge_alias_backfill in Hstep as (Hc & Hk & _).
    rewrite (IH _ _ Hrun). unfold key_of. by rewrite Hc, Hk.
Qed.

(** The row stored for the primary object after a successful call is the
    attribute dictionary of the object that is returned. *)
Lemma merge_model_objects_stored (p p' : instance) (aliases : alias_arg) (md ko : bool)
    (w w' : world) :
  merge_model_objects sch p aliases md ko w = (Ok p', w') →
  db w' !! key_of p = Some (i_attrs p').
Proof.
  intros (blank & st & w1 & _ & Hloop & -> & Hsave)%merge_model_objects_Ok.
  apply aliases_keep_identity in Hloop. simpl in Hloop.
  unfold save in Hsave. injection Hsave as <-. simpl.
  rewrite Hloop. apply lookup_insert_eq.
Qed.

(** C4: a field of the primary object that holds a non-blank value before
    the call holds the same value in the object that is returned, and in
    the row that the final save stores. *)
Theorem backfill_keeps_nonblank (p p' : instance) (aliases : alias_arg) (md ko : bool)
    (w w' : world) (f : string) (v : value) :
  merge_model_objects sch p aliases md ko w = (Ok p', w') →
  i_attrs p !! f = Some v →
  is_blank v = false →
  i_attrs p' !! f = Some v
  ∧ ∃ r, db w' !! key_of p = Some r ∧ r !! f = Some v.
Proof.
  intros Hrun Hv Hnb.
  assert (i_attrs p' !! f = Some v) as Hres.
  { apply merge_model_objects_Ok in Hrun as (blank & st & w1 & Hblank & Hloop & -> & _).
    apply compute_blank_local_fields_spec in Hblank as [_ Hblank].
    assert (f ∉ blank) as Hf.
    { intros (lf & v' & _ & _ & Hv' & Hb)%Hblank. congruence. }
    by destruct (aliases_keep_settled_field _ _ _ _ _ _ _ _ f Hloop Hf) as [-> _]. }
  split; [done|]. exists (i_attrs p'). split; [|done].
  by eapply merge_model_objects_stored.
Qed.

(** C5: a local field that is blank on the primary object before the call
    takes the value of the first alias, in the order given, whose value for
    that field is not blank; the aliases after it do not change it. *)
Theorem backfill_first_nonblank (p p' : instance) (before after : list instance)
    (a : instance) (md ko : bool) (w w' : world) (lf : local_field) (v0 v : value) :
  merge_model_objects sch p (AList (before ++ a :: after)) md ko w = (Ok p', w') →
  lf ∈ local_fields sch p →
  i_attrs p !! lf_attname lf = Some v0 →
  is_blank v0 = true →
  Forall (λ b, ∀ vb, i_attrs b !! lf_attname lf = Some vb → is_blank vb = true) before →
  i_attrs a !! lf_attname lf = Some v →
  is_blank v = false →
  i_attrs p' !! lf_attname lf = Some v
  ∧ ∃ r, db w' !! key_of p = Some r ∧ r !! lf_attname lf = Some v.
Proof.
  intros Hrun Hlf Hv0 Hb0 Hbefore Hv Hnb.
  assert (i_attrs p' !! lf_attname lf = Some v) as Hres.
  { apply merge_model_objects_Ok in Hrun as (blank & st & w1 & Hblank & Hloop & -> & _).
    apply compute_blank_local_fields_spec in Hblank as [_ Hblank].
    assert (lf_attname lf ∈ blank) as Hf by (apply Hblank; eauto 6).
    simpl in Hloop. apply for_fold_app in Hloop as (st1 & w2 & Hl1 & Hloop).
    destruct (aliases_skip_blank_field _ _ _ _ _ _ _ _ _ Hl1 Hf Hbefore) as [_ Hf1].
    simpl in Hloop. apply bind_Ok in Hloop as (st2 & w3 & Ha & Hl2).
    apply merge_alias_backfill in Ha as (_ & _ & Ha).
    destruct (Ha (lf_attname lf)) as [_ Hin].
    destruct (Hin Hf1) as (v' & Hv' & Hcase).
    assert (v' = v) as -> by congruence. rewrite Hnb in Hcase.
    destruct Hcase as [Hset Hout].
    destruct (aliases_keep_settled_field _ _ _ _ _ _ _ _ _ Hl2 Hout) as [-> _].
    done. }
  split; [done|]. exists (i_attrs p'). split; [|done].
  by eapply merge_model_objects_stored.
Qed.

End BackfillClaims.

Lemma backfill_keeps_nonblank_witness :
  ∃ p' w',
    merge_model_objects Fixture.registry Fixture.ann
      (AList [Fixture.annie; Fixture.anne]) false false Fixture.store = (Ok p', w')
    ∧ i_attrs p' !! "name" = Some (VStr "Ann")
    ∧ ∃ r, db w' !! key_of Fixture.ann = Some r ∧ r !! "name" = Some (VStr "Ann").
Proof.
  eexists _, _. split; [vm_compute; reflexivity|].
  eapply (backfill_keeps_nonblank Fixture.registry Fixture.ann _
            (AList [Fixture.annie; Fixture.anne]) false false Fixture.store).
  - vm_compute. reflexivity.
  - vm_compute. reflexivity.
  - reflexivity.
Defined.

Lemma backfill_first_nonblank_witness :
  ∃ p' w',
    merge_model_objects Fixture.registry Fixture.ann
      (AList ([Fixture.nameless] ++ Fixture.annie :: [Fixture.anne]))
      false false Fixture.store = (Ok p', w')
    ∧ i_attrs p' !! "email" = Some (VStr "annie@example.com")
    ∧ ∃ r, db w' !! key_of Fixture.ann = Some r
           ∧ r !! "email" = Some (VStr "annie@example.com").
Proof.
  eexists _, _. split; [vm_compute; reflexivity|].
  eapply (backfill_first_nonblank Fixture.registry Fixture.ann _ [Fixture.nameless]
            [Fixture.anne] Fixture.annie false false Fixture.store _
            (LocalField "email" false None) VNone).
  - vm_compute. reflexivity.
  - apply list_elem_of_In. vm_compute. tauto.
  - vm_compute. reflexivity.
  - reflexivity.
  - constructor; [|constructor]. intros vb. vm_compute. by intros [= <-].
  - vm_compute. reflexivity.
  - reflexivity.
Defined.

(** * The migration steps always complete *)








(** Lines 77-83, by cases on which of the two objects has a linked record. *)
Lemma migrate_one_to_one_related_run (a p : instance) (d : related_object) (w : world) :
  migrate_one_to_one_related a p d w
  = match one_to_one_related d a w, one_to_one_related d p w with
    | Some r, None => save (set_reference r (ro_field_name d) p) w
    | _, _ => (Ok (), w)
    end.
Proof.
  unfold migrate_one_to_one_related, bind, hasattr_one_to_one, getattr_one_to_one.
  cbv beta.
  destruct (one_to_one_related d a w) as [r|] eqn:Ha; simpl; [|done].
  destruct (one_to_one_related d p w) as [r'|] eqn:Hp; simpl; [done|].
  by rewrite Ha.
Qed.


Section Totality.
Context (sch : schema).




End Totality.



(** * The flag and the back-fill *)

Section Flag.
Context (sch : schema).








End Flag.


(** * The records that reference an object *)

Lemma elem_of_related_rows (d : related_object) (obj r : instance) (w : world) :
  r ∈ related_rows d obj w ↔
  db w !! key_of r = Some (i_attrs r) ∧ references d (i_pk obj) (key_of r) (i_attrs r).
Proof.
  unfold related_rows. rewrite list_elem_of_fmap. split.
  - intros ([k row] & -> & Hin). apply elem_of_map_to_list in Hin.
    apply map_lookup_filter_Some in Hin as [Hrow Href]. simpl in *.
    by destruct k.
  - intros [Hrow Href]. exists (key_of r, i_attrs r). split; [by destruct r|].
    apply elem_of_map_to_list, map_lookup_filter_Some. by split.
Qed.

Lemma related_rows_NoDup (d : related_object) (obj : instance) (w : world) :
  NoDup (key_of <$> related_rows d obj w).
Proof.
  unfold related_rows. rewrite <- list_fmap_compose.
  assert (∀ l : list (string * Z * gmap string value), (key_of ∘ load) <$> l = l.*1) as ->.
  { intros l. apply list_fmap_ext. by intros i [[m k] row] _. }
  apply NoDup_fst_map_to_list.
Qed.

Lemma one_to_one_related_Some (d : related_object) (obj r : instance) (w : world) :
  one_to_one_related d obj w = Some r →
  ro_hidden d = false
  ∧ related_rows d obj w = [r]
  ∧ db w !! key_of r = Some (i_attrs r)
  ∧ references d (i_pk obj) (key_of r) (i_attrs r).
Proof.
  unfold one_to_one_related. destruct (ro_hidden d); [done|].
  destruct (related_rows d obj w) as [|r' [|? ?]] eqn:Hrows; try done.
  intros [= ->]. split; [done|]. split; [done|].
  apply (elem_of_related_rows d obj r w). rewrite Hrows. by apply list_elem_of_singleton.
Qed.

(** * One-to-one links *)

Section OneToOne.
Context (sch : schema).


End OneToOne.


(** * How the migration changes the store *)

(** Between two stores, the row under [k] went from [r] to [r']: every
    column kept its value or was set, by a save that is in [evs], to the key
    [ppk] of the primary object. *)
Definition moved (ppk : Z) (evs : list event) (k : string * Z)
    (r r' : gmap string value) : Prop :=
  ∀ c, r' !! c = r !! c
       ∨ (r' !! c = Some (VInt ppk)
          ∧ ∃ r'', EvSave k r'' ∈ evs ∧ r'' !! c = Some (VInt ppk)).

(** The store went from [w] to [w'] through the persistence calls [evs],
    all of them re-pointings to [ppk], changes of links, or, unless [keep],
    deletions: rows are only re-pointed or deleted, never created, and
    every link that is new has the primary object at one end. *)
Record evolves (ppk : Z) (keep : bool) (w w' : world) (evs : list event) : Prop := Evolves {
  ev_log : log w' = log w ++ evs;
  ev_deletes : ∀ k, EvDelete k ∈ evs → keep = false;
  ev_rows : ∀ k r', db w' !! k = Some r' → ∃ r, db w !! k = Some r ∧ moved ppk evs k r r';
  ev_gone : ∀ k, is_Some (db w !! k) → db w' !! k = None → EvDelete k ∈ evs;
  ev_links : ∀ m f x y, (m, f, x, y) ∈ m2m w' → (m, f, x, y) ∈ m2m w ∨ x = ppk ∨ y = ppk
}.

Lemma moved_refl (ppk : Z) (evs : list event) (k : string * Z) (r : gmap string value) :
  moved ppk evs k r r.
Proof. intros c. by left. Qed.

Lemma moved_trans (ppk : Z) (evs1 evs2 : list event) (k : string * Z)
    (r1 r2 r3 : gmap string value) :
  moved ppk evs1 k r1 r2 → moved ppk evs2 k r2 r3 → moved ppk (evs1 ++ evs2) k r1 r3.
Proof.
  intros H12 H23 c. destruct (H23 c) as [Heq|[Hc (r'' & Hev & Hr'')]].
  - rewrite Heq. destruct (H12 c) as [?|[? (r'' & Hev & Hr'')]]; [by left|].
    right. split; [done|]. exists r''. split; [|done]. apply elem_of_app. by left.
  - right. split; [done|]. exists r''. split; [|done]. apply elem_of_app. by right.
Qed.

Lemma evolves_refl (ppk : Z) (keep : bool) (w : world) : evolves ppk keep w w [].
Proof.
  split.
  - by rewrite app_nil_r.
  - intros k Hk. by apply elem_of_nil in Hk.
  - intros k r' Hr'. exists r'. split; [done|]. apply moved_refl.
  - intros k [r Hr] Hnone. congruence.
  - intros m f x y Hl. by left.
Qed.

Lemma evolves_trans (ppk : Z) (keep : bool) (w1 w2 w3 : world) (evs1 evs2 : list event) :
  evolves ppk keep w1 w2 evs1 → evolves ppk keep w2 w3 evs2 →
  evolves ppk keep w1 w3 (evs1 ++ evs2).
Proof.
  intros [Hl1 Hd1 Hr1 Hg1 Hm1] [Hl2 Hd2 Hr2 Hg2 Hm2]. split.
  - by rewrite Hl2, Hl1, app_assoc.
  - intros k [Hk|Hk]%elem_of_app; eauto.
  - intros k r3 H3. destruct (Hr2 k r3 H3) as (r2 & H2 & H23).
    destruct (Hr1 k r2 H2) as (r1 & H1 & H12).
    exists r1. split; [done|]. by eapply moved_trans.
  - intros k Hsome Hnone. apply elem_of_app.
    destruct (db w2 !! k) as [r2|] eqn:H2.
    + right. apply Hg2; [by rewrite H2 | done].
    + left. by apply Hg1.
  - intros m f x y Hl. destruct (Hm2 m f x y Hl) as [Hl2'|?]; [|by right].
    by apply Hm1.
Qed.

Lemma evolves_keep_mono (ppk : Z) (keep : bool) (w w' : world) (evs : list event) :
  evolves ppk true w w' evs → evolves ppk keep w w' evs.
Proof.
  intros [Hl Hd Hr Hg Hm]. split; try done.
  intros k Hk. by specialize (Hd k Hk).
Qed.

(** Without deletions, every record stays. *)
Lemma evolves_stays (ppk : Z) (w w' : world) (evs : list event) (k : string * Z) :
  evolves ppk true w w' evs → is_Some (db w !! k) → is_Some (db w' !! k).
Proof.
  intros [_ Hd _ Hg _] Hsome. destruct (db w' !! k) eqn:Hk; [by eexists|].
  by specialize (Hd k (Hg k Hsome Hk)).
Qed.

(** A reference to the primary object stays one. *)
Lemma evolves_keeps_reference (ppk : Z) (w w' : world) (evs : list event)
    (k : string * Z) (r : gmap string value) (c : string) :
  evolves ppk true w w' evs →
  db w !! k = Some r → r !! c = Some (VInt ppk) →
  ∃ r', db w' !! k = Some r' ∧ r' !! c = Some (VInt ppk).
Proof.
  intros Hev Hr Hc. destruct (evolves_stays _ _ _ _ k Hev) as [r' Hr']; [by eexists|].
  exists r'. split; [done|].
  destruct (ev_rows _ _ _ _ _ Hev k r' Hr') as (r0 & Hr0 & Hmoved).
  assert (r0 = r) as -> by congruence.
  destruct (Hmoved c) as [->|[? _]]; done.
Qed.

(** A reference to another key than that of the primary object was there
    before. *)
Lemma evolves_reference_was_there (ppk pk : Z) (keep : bool) (w w' : world)
    (evs : list event) (k : string * Z) (r' : gmap string value) (c : string) :
  evolves ppk keep w w' evs → pk ≠ ppk →
  db w' !! k = Some r' → r' !! c = Some (VInt pk) →
  ∃ r, db w !! k = Some r ∧ r !! c = Some (VInt pk).
Proof.
  intros Hev Hne Hr' Hc.
  destruct (ev_rows _ _ _ _ _ Hev k r' Hr') as (r & Hr & Hmoved).
  exists r. split; [done|].
  destruct (Hmoved c) as [<-|[? _]]; [done | congruence].
Qed.

Lemma save_reference_evolves (obj p : instance) (c : string) (w w' : world) :
  db w !! key_of obj = Some (i_attrs obj) →
  save (set_reference obj c p) w = (Ok (), w') →
  evolves (i_pk p) true w w' [EvSave (key_of obj) (<[c := VInt (i_pk p)]> (i_attrs obj))].
Proof.
  intros Hrow [= <-]. split; simpl.
  - done.
  - intros k Hk. apply list_elem_of_singleton in Hk. done.
  - intros k r'. change (key_of (set_reference obj c p)) with (key_of obj).
    destruct (decide (key_of obj = k)) as [<-|Hne].
    + rewrite lookup_insert_eq. intros [= <-]. exists (i_attrs obj). split; [done|].
      intros c'. destruct (decide (c = c')) as [<-|Hc].
      * right. rewrite lookup_insert_eq. split; [done|].
        eexists. split; [by apply list_elem_of_singleton|]. apply lookup_insert_eq.
      * left. by rewrite lookup_insert_ne.
    + rewrite lookup_insert_ne by done. intros Hr'. exists r'. split; [done|].
      apply moved_refl.
  - intros k Hsome. change (key_of (set_reference obj c p)) with (key_of obj).
    destruct (decide (key_of obj = k)) as [<-|Hne].
    + by rewrite lookup_insert_eq.
    + rewrite lookup_insert_ne by done. intros Hnone. destruct Hsome. congruence.
  - intros m f x y Hl. by left.
Qed.

(** Lines 56-58 and 90-92: every loaded record is stored with its reference
    on the primary object; the records were loaded together, before the
    first save, and each save leaves the others as they were loaded. *)
Lemma repoint_all_evolves (objs : list instance) (c : string) (p : instance)
    (w w' : world) :
  NoDup (key_of <$> objs) →
  (∀ obj, obj ∈ objs → db w !! key_of obj = Some (i_attrs obj)) →
  repoint_all objs c p w = (Ok (), w') →
  ∃ evs, evolves (i_pk p) true w w' evs
         ∧ ∀ obj, obj ∈ objs →
             ∃ r', db w' !! key_of obj = Some r' ∧ r' !! c = Some (VInt (i_pk p))
                   ∧ ∃ r'', EvSave (key_of obj) r'' ∈ evs ∧ r'' !! c = Some (VInt (i_pk p)).
Proof.
  unfold repoint_all. revert w.
  induction objs as [|obj objs IH]; intros w Hnodup Hrows Hrun; simpl in Hrun.
  - apply ret_Ok in Hrun as [_ <-]. exists []. split; [apply evolves_refl|].
    intros obj Hobj. by apply elem_of_nil in Hobj.
  - apply bind_Ok in Hrun as ([] & w1 & Hsave & Hrun).
    rewrite fmap_cons in Hnodup. apply NoDup_cons in Hnodup as [Hfresh Hnodup].
    assert (db w !! key_of obj = Some (i_attrs obj)) as Hobj
      by (apply Hrows, elem_of_cons; by left).
    pose proof (save_reference_evolves _ _ _ _ _ Hobj Hsave) as Hev1.
    destruct (IH w1 Hnodup) as (evs & Hev2 & Hall); [|done|].
    { intros obj' Hobj'. injection Hsave as <-. simpl.
      change (key_of (set_reference obj c p)) with (key_of obj).
      rewrite lookup_insert_ne.
      - apply Hrows, elem_of_cons. by right.
      - intros Heq. apply Hfresh. rewrite Heq. by apply list_elem_of_fmap_2. }
    eexists. split; [by eapply evolves_trans|].
    intros obj' [->|Hobj']%elem_of_cons.
    + assert (db w1 !! key_of obj = Some (<[c := VInt (i_pk p)]> (i_attrs obj))) as Hw1.
      { injection Hsave as <-. simpl. apply lookup_insert_eq. }
      destruct (evolves_keeps_reference _ _ _ _ _ _ c Hev2 Hw1) as (r' & Hr' & Hc);
        [apply lookup_insert_eq|].
      exists r'. split; [done|]. split; [done|].
      eexists. split; [apply elem_of_cons; by left | apply lookup_insert_eq].
    + destruct (Hall obj' Hobj') as (r' & Hr' & Hc & r'' & Hev & Hr'').
      exists r'. split; [done|]. split; [done|].
      exists r''. split; [|done]. apply elem_of_cons. by right.
Qed.

(** Lines 52-58 and 87-92 for one relation [d]: unless [d] is hidden,
    every record that referenced the alias through [d] is stored, by a save
    of the step, with its reference on the primary object. *)
Lemma migrate_related_evolves (a p : instance) (d : related_object) (w w' : world) :
  migrate_related a p d w = (Ok (), w') →
  ∃ evs, evolves (i_pk p) true w w' evs
         ∧ (ro_hidden d = false →
            ∀ k r, db w !! k = Some r → references d (i_pk a) k r →
                   ∃ r', db w' !! k = Some r' ∧ references d (i_pk p) k r'
                         ∧ ∃ r'', EvSave k r'' ∈ evs
                                  ∧ r'' !! ro_field_name d = Some (VInt (i_pk p))).
Proof.
  unfold migrate_related, related_objects, hasattr_manager. intros Hrun.
  apply bind_Ok in Hrun as (objs & w1 & Hobjs & Hrun).
  destruct (ro_hidden d) eqn:Hhid; simpl in Hobjs.
  - apply ret_Ok in Hobjs as [<- <-]. apply ret_Ok in Hrun as [_ <-].
    exists []. split; [apply evolves_refl | done].
  - injection Hobjs as <- <-.
    destruct (repoint_all_evolves _ _ _ _ _ (related_rows_NoDup d a w)
                (λ obj Hobj, proj1 (proj1 (elem_of_related_rows d a obj w) Hobj)) Hrun)
      as (evs & Hev & Hall).
    exists evs. split; [done|]. intros _ k r Hr Href.
    destruct (Hall (Instance k.1 k.2 r)) as (r' & Hr' & Hc & Hsaved).
    { apply elem_of_related_rows. by destruct k. }
    assert (key_of (Instance k.1 k.2 r) = k) as Hk by (by destruct k).
    rewrite Hk in Hr', Hsaved.
    exists r'. split; [done|]. split; [|done]. destruct Href. by split.
Qed.

(** A loop whose every step makes the store evolve makes it evolve; what a
    step establishes, and the evolution preserves, holds at the end for
    every element. *)
Lemma for_each_evolves {A : Type} (ppk : Z) (keep : bool) (l : list A) (body : A → M unit)
    (Q : A → world → list event → Prop) (w w' : world) :
  (∀ x w1 w2 evs0, x ∈ l → evolves ppk keep w w1 evs0 → body x w1 = (Ok (), w2) →
     ∃ evs, evolves ppk keep w1 w2 evs ∧ Q x w2 (evs0 ++ evs)) →
  (∀ x w1 w2 evs1 evs2, Q x w1 evs1 → evolves ppk keep w w1 evs1 →
     evolves ppk keep w1 w2 evs2 → Q x w2 (evs1 ++ evs2)) →
  for_each l body w = (Ok (), w') →
  ∃ evs, evolves ppk keep w w' evs ∧ ∀ x, x ∈ l → Q x w' evs.
Proof.
  intros Hbody Hkeep Hrun.
  assert (∀ l' w1 evs0, l' ⊆ l → evolves ppk keep w w1 evs0 →
            for_each l' body w1 = (Ok (), w') →
            ∃ evs, evolves ppk keep w1 w' evs ∧ ∀ x, x ∈ l' → Q x w' (evs0 ++ evs)) as Hgen.
  { clear Hrun. induction l' as [|x l' IH]; intros w1 evs0 Hsub Hev0 Hrun; simpl in Hrun.
    - apply ret_Ok in Hrun as [_ <-]. exists []. split; [apply evolves_refl|].
      intros x Hx. by apply elem_of_nil in Hx.
    - apply bind_Ok in Hrun as ([] & w2 & Hx & Hrun).
      assert (x ∈ l) as Hxl by (apply Hsub, elem_of_cons; by left).
      destruct (Hbody x w1 w2 evs0 Hxl Hev0 Hx) as (evs1 & Hev1 & HQ).
      destruct (IH w2 (evs0 ++ evs1)) as (evs2 & Hev2 & Hall); [|by eapply evolves_trans|done|].
      { intros y Hy. apply Hsub, elem_of_cons. by right. }
      exists (evs1 ++ evs2). split; [by eapply evolves_trans|].
      intros y [->|Hy]%elem_of_cons.
      + rewrite app_assoc. eapply Hkeep; [done| |done]. by eapply evolves_trans.
      + rewrite app_assoc. by apply Hall. }
  destruct (Hgen l w [] (reflexivity _) (evolves_refl _ _ _) Hrun) as (evs & Hev & Hall).
  by exists evs.
Qed.

Lemma many_remove_evolves (ppk : Z) (d : related_many) (obj target : instance)
    (w w' : world) :
  many_remove d obj target w = (Ok (), w') →
  evolves ppk true w w' (EvRemove <$> links_of d obj target).
Proof.
  intros [= <-]. split; cbn [log db m2m].
  - done.
  - intros k (l & ? & _)%list_elem_of_fmap. done.
  - intros k r' Hr'. exists r'. split; [done | apply moved_refl].
  - intros k [r Hr] Hnone. congruence.
  - intros m f x y [Hl _]%elem_of_difference. by left.
Qed.

Lemma many_add_evolves (d : related_many) (obj p : instance) (w w' : world) :
  many_add d obj p w = (Ok (), w') →
  evolves (i_pk p) true w w' (EvAdd <$> links_of d obj p).
Proof.
  intros [= <-]. split; cbn [log db m2m].
  - done.
  - intros k (l & ? & _)%list_elem_of_fmap. done.
  - intros k r' Hr'. exists r'. split; [done | apply moved_refl].
  - intros k [r Hr] Hnone. congruence.
  - intros m f x y [Hl|Hl]%elem_of_union; [by left|]. right.
    unfold links_of, link in Hl. destruct (rm_symmetrical d); set_unfold in Hl.
    + destruct Hl as [[= _ _ _ ->]|[[= _ _ -> _]|[]]]; [by right | by left].
    + destruct Hl as [[= _ _ _ ->]|[]]. by right.
Qed.

Lemma migrate_one_to_one_related_evolves (a p : instance) (d : related_object)
    (w w' : world) :
  migrate_one_to_one_related a p d w = (Ok (), w') →
  ∃ evs, evolves (i_pk p) true w w' evs.
Proof.
  rewrite migrate_one_to_one_related_run.
  destruct (one_to_one_related d a w) as [r|] eqn:Ha.
  - destruct (one_to_one_related d p w) as [r'|].
    + intros [= <-]. exists []. apply evolves_refl.
    + intros Hsave. apply one_to_one_related_Some in Ha as (_ & _ & Hrow & _).
      eexists. by eapply save_reference_evolves.
  - intros [= <-]. exists []. apply evolves_refl.
Qed.

Section Evolution.
Context (sch : schema).

Lemma migrate_many_to_many_evolves (a p : instance) (w w' : world) :
  migrate_many_to_many sch a p w = (Ok (), w') →
  ∃ evs, evolves (i_pk p) true w w' evs.
Proof.
  unfold migrate_many_to_many. intros Hrun.
  eapply (for_each_evolves _ _ _ _ (λ _ _ _, True)) in Hrun as (evs & Hev & _);
    [by exists evs| |done].
  intros d w1 w2 evs0 _ _ Hd.
  apply bind_Ok in Hd as (objs & w3 & Hobjs & Hd).
  assert (w3 = w1) as ->.
  { destruct (rm_accessor_name d); by injection Hobjs as _ <-. }
  eapply (for_each_evolves _ _ _ _ (λ _ _ _, True)) in Hd as (evs & Hev & _);
    [by exists evs| |done].
  intros obj u1 u2 evs1 _ _ Hobj.
  apply bind_Ok in Hobj as ([] & u3 & Hrem & Hadd).
  eexists. split; [|done]. eapply evolves_trans.
  - by eapply many_remove_evolves.
  - by eapply many_add_evolves.
Qed.

Lemma migrate_one_to_one_evolves (a p : instance) (w w' : world) :
  migrate_one_to_one sch a p w = (Ok (), w') →
  ∃ evs, evolves (i_pk p) true w w' evs.
Proof.
  unfold migrate_one_to_one. intros Hrun.
  eapply (for_each_evolves _ _ _ _ (λ _ _ _, True)) in Hrun as (evs & Hev & _);
    [by exists evs| |done].
  intros d w1 w2 evs0 _ _ Hd.
  apply migrate_one_to_one_related_evolves in Hd as (evs & Hev). by exists evs.
Qed.

(** What the two loops over to-many relations establish, and the rest of the
    migration preserves: every record that referenced the alias through the
    relation [d] when the loop began is stored with its reference on the
    primary object, by a save issued since. *)
Definition repointed (a p : instance) (w0 : world) (d : related_object)
    (w : world) (evs : list event) : Prop :=
  ro_hidden d = false →
  ∀ k r, db w0 !! k = Some r → references d (i_pk a) k r →
         ∃ r', db w !! k = Some r' ∧ references d (i_pk p) k r'
               ∧ ∃ r'', EvSave k r'' ∈ evs ∧ r'' !! ro_field_name d = Some (VInt (i_pk p)).

Lemma repointed_preserved (a p : instance) (w0 w1 w2 : world) (d : related_object)
    (evs1 evs2 : list event) :
  repointed a p w0 d w1 evs1 → evolves (i_pk p) true w1 w2 evs2 →
  repointed a p w0 d w2 (evs1 ++ evs2).
Proof.
  intros Hrep Hev Hhid k r Hr Href.
  destruct (Hrep Hhid k r Hr Href) as (r1 & Hr1 & [Hm Hc] & r'' & Hsaved & Hr'').
  destruct (evolves_keeps_reference _ _ _ _ _ _ _ Hev Hr1 Hc) as (r2 & Hr2 & Hc2).
  exists r2. split; [done|]. split; [by split|].
  exists r''. split; [|done]. apply elem_of_app. by left.
Qed.

(** One step of such a loop, started from a store [w1] that evolved from
    the store [w0] in which the loop began. *)
Lemma migrate_related_repointed (a p : instance) (d : related_object)
    (w0 w1 w2 : world) (evs0 : list event) :
  evolves (i_pk p) true w0 w1 evs0 →
  migrate_related a p d w1 = (Ok (), w2) →
  ∃ evs, evolves (i_pk p) true w1 w2 evs ∧ repointed a p w0 d w2 (evs0 ++ evs).
Proof.
  intros Hev0 Hrun.
  apply migrate_related_evolves in Hrun as (evs & Hev & Hstep).
  exists evs. split; [done|]. intros Hhid k r Hr Href.
  destruct (evolves_stays _ _ _ _ k Hev0) as [r1 Hr1]; [by eexists|].
  destruct (ev_rows _ _ _ _ _ Hev0 k r1 Hr1) as (r0 & Hr0 & Hmoved).
  assert (r0 = r) as -> by congruence.
  destruct Href as [Hm Hc].
  destruct (Hmoved (ro_field_name d)) as [Hsame|[Hset (r'' & Hsaved & Hr'')]].
  - destruct (Hstep Hhid k r1 Hr1) as (r2 & Hr2 & Href2 & r'' & Hsaved & Hr'').
    { split; [done|]. by rewrite Hsame. }
    exists r2. split; [done|]. split; [done|].
    exists r''. split; [|done]. apply elem_of_app. by right.
  - destruct (evolves_keeps_reference _ _ _ _ _ _ _ Hev Hr1 Hset) as (r2 & Hr2 & Hc2).
    exists r2. split; [done|]. split; [by split|].
    exists r''. split; [|done]. apply elem_of_app. by left.
Qed.

Lemma migrate_one_to_many_evolves (a p : instance) (w w' : world) :
  migrate_one_to_many sch a p w = (Ok (), w') →
  ∃ evs, evolves (i_pk p) true w w' evs
         ∧ ∀ d, d ∈ get_all_related_one_to_many_objects sch a → repointed a p w d w' evs.
Proof.
  unfold migrate_one_to_many. intros Hrun.
  eapply (for_each_evolves _ _ _ _ (repointed a p w)) in Hrun; [done| |].
  - intros d w1 w2 evs0 _ Hev0 Hd. by eapply migrate_related_repointed.
  - intros d w1 w2 evs1 evs2 Hrep _ Hev. by eapply repointed_preserved.
Qed.

Lemma migrate_local_fields_evolves (a p : instance) (w w' : world) :
  migrate_local_fields sch a p w = (Ok (), w') →
  ∃ evs, evolves (i_pk p) true w w' evs
         ∧ ∀ f, f ∈ local_fields sch a → lf_auto f = false →
                ∃ d, lf_rel f = Some d ∧ repointed a p w d w' evs.
Proof.
  unfold migrate_local_fields. intros Hrun.
  eapply (for_each_evolves _ _ _ _
            (λ f w1 evs, lf_auto f = false → ∃ d, lf_rel f = Some d ∧ repointed a p w d w1 evs))
    in Hrun; [done| |].
  - intros f w1 w2 evs0 _ Hev0 Hf. destruct (lf_auto f).
    { apply ret_Ok in Hf as [_ <-]. exists []. split; [apply evolves_refl | done]. }
    destruct (lf_rel f) as [d|]; [|by apply raise_Ok in Hf].
    destruct (migrate_related_repointed _ _ _ _ _ _ _ Hev0 Hf) as (evs & Hev & Hrep).
    exists evs. split; [done|]. intros _. by exists d.
  - intros f w1 w2 evs1 evs2 Hrep _ Hev Hauto.
    destruct (Hrep Hauto) as (d & Hd & Hrep'). exists d. split; [done|].
    by eapply repointed_preserved.
Qed.

End Evolution.

Lemma delete_evolves (ppk : Z) (a : instance) (w w' : world) :
  delete a w = (Ok (), w') → evolves ppk false w w' [EvDelete (key_of a)].
Proof.
  intros [= <-]. split; cbn [log db m2m].
  - done.
  - done.
  - intros k r' Hr'. apply lookup_delete_Some in Hr' as [_ Hr'].
    exists r'. split; [done | apply moved_refl].
  - intros k [r Hr] Hnone. apply list_elem_of_singleton. f_equal.
    apply lookup_delete_None in Hnone as [?|?]; [done | congruence].
  - intros m f x y Hl. by left.
Qed.

(** What the relation established for the store at the beginning of a loop
    says of an earlier store. *)
Lemma repointed_rebase (a p : instance) (d : related_object) (w0 w1 w2 : world)
    (evs0 evs : list event) :
  evolves (i_pk p) true w0 w1 evs0 →
  evolves (i_pk p) true w1 w2 evs →
  repointed a p w1 d w2 evs →
  repointed a p w0 d w2 (evs0 ++ evs).
Proof.
  intros Hev0 Hev Hrep Hhid k r Hr Href.
  destruct (evolves_stays _ _ _ _ k Hev0) as [r1 Hr1]; [by eexists|].
  destruct (ev_rows _ _ _ _ _ Hev0 k r1 Hr1) as (r0 & Hr0 & Hmoved).
  assert (r0 = r) as -> by congruence.
  destruct Href as [Hm Hc].
  destruct (Hmoved (ro_field_name d)) as [Hsame|[Hset (r'' & Hsaved & Hr'')]].
  - destruct (Hrep Hhid k r1 Hr1) as (r2 & Hr2 & Href2 & r'' & Hsaved & Hr'').
    { split; [done|]. by rewrite Hsame. }
    exists r2. split; [done|]. split; [done|].
    exists r''. split; [|done]. apply elem_of_app. by right.
  - destruct (evolves_keeps_reference _ _ _ _ _ _ _ Hev Hr1 Hset) as (r2 & Hr2 & Hc2).
    exists r2. split; [done|]. split; [by split|].
    exists r''. split; [|done]. apply elem_of_app. by left.
Qed.

(** ** Which rows a step can touch *)




Section Frame.
Context (sch : schema).



End Frame.

(** * The turn of one alias *)


Lemma repointed_events_mono (a p : instance) (w0 w : world) (d : related_object)
    (evs evs' : list event) :
  (∀ e, e ∈ evs → e ∈ evs') → repointed a p w0 d w evs → repointed a p w0 d w evs'.
Proof.
  intros Hsub Hrep Hhid k r Hr Href.
  destruct (Hrep Hhid k r Hr Href) as (r' & Hr' & Href' & r'' & Hsaved & Hr'').
  exists r'. split; [done|]. split; [done|]. exists r''. split; [by apply Hsub | done].
Qed.

Section Turn.
Context (sch : schema).

(** The turn of an alias, up to its deletion: the store evolves without
    deletion, and the records that referenced the alias through a reverse
    to-many relation, or with the flag through the relation of a local
    field, have been re-pointed. *)
Lemma merge_alias_migration (md ko : bool) (a : instance) (st st' : instance * gset string)
    (w w' : world) :
  merge_alias sch md ko a st w = (Ok st', w') →
  ∃ wm evs,
    evolves (i_pk st.1) true w wm evs
    ∧ (md = true → ∀ f, f ∈ local_fields sch a → lf_auto f = false →
                        ∃ d, lf_rel f = Some d ∧ repointed a st.1 w d wm evs)
    ∧ (∀ d, d ∈ get_all_related_one_to_many_objects sch a → repointed a st.1 w d wm evs)
    ∧ (if negb ko then delete a else ret ()) wm = (Ok (), w').
Proof.
  intros (w1 & w2 & w3 & w4 & w5 & H1 & H2 & H3 & H4 & H5 & H6)%merge_alias_Ok.
  apply fill_missing_values_spec in H5 as [-> _].
  assert (∃ evs1, evolves (i_pk st.1) true w w1 evs1
                  ∧ (md = true → ∀ f, f ∈ local_fields sch a → lf_auto f = false →
                       ∃ d, lf_rel f = Some d ∧ repointed a st.1 w d w1 evs1))
    as (evs1 & Hev1 & Hdirect).
  { destruct md.
    - apply migrate_local_fields_evolves in H1 as (evs1 & Hev1 & Hdirect).
      exists evs1. by split.
    - apply ret_Ok in H1 as [_ <-]. exists []. split; [apply evolves_refl | done]. }
  apply migrate_many_to_many_evolves in H2 as (evs2 & Hev2).
  apply migrate_one_to_one_evolves in H3 as (evs3 & Hev3).
  apply migrate_one_to_many_evolves in H4 as (evs4 & Hev4 & Hreverse).
  pose proof (evolves_trans _ _ _ _ _ _ _ Hev2 Hev3) as Hev23.
  pose proof (evolves_trans _ _ _ _ _ _ _ Hev1 Hev23) as Hev13.
  pose proof (evolves_trans _ _ _ _ _ _ _ Hev23 Hev4) as Hev24.
  exists w4, ((evs1 ++ evs2 ++ evs3) ++ evs4).
  split; [by eapply evolves_trans|]. split; [|split; [|done]].
  - intros Hmd f Hf Hauto. destruct (Hdirect Hmd f Hf Hauto) as (d & Hd & Hrep).
    exists d. split; [done|].
    eapply repointed_events_mono;
      [|exact (repointed_preserved _ _ _ _ _ _ _ _ Hrep Hev24)].
    intros e. rewrite !elem_of_app. tauto.
  - intros d Hd. by eapply repointed_rebase; [| |apply Hreverse].
Qed.


End Turn.


(** * Generic relationships *)



(** * After the loop over the aliases *)

(** No stored record references [a] through [d]. *)
Definition unreferenced (a : instance) (d : related_object) (w : world) : Prop :=
  ∀ k r, db w !! k = Some r → ¬ references d (i_pk a) k r.

(** At most one stored record references [a] through [d]. *)
Definition at_most_one (a : instance) (d : related_object) (w : world) : Prop :=
  ∀ k1 r1 k2 r2, db w !! k1 = Some r1 → references d (i_pk a) k1 r1 →
                 db w !! k2 = Some r2 → references d (i_pk a) k2 r2 → k1 = k2.

(** The link between the alias [a] and the record with key [x] that the
    loop of lines 61-73 looks for: from [x] to [a] through a reverse
    accessor, from [a] to [x] when the relation has none. *)
Definition alias_link (d : related_many) (a : instance) (x : Z) : string * string * Z * Z :=
  match rm_accessor_name d with
  | Some _ => link d x (i_pk a)
  | None => link d (i_pk a) x
  end.

Lemma unreferenced_preserved (ppk : Z) (keep : bool) (a : instance) (d : related_object)
    (w w' : world) (evs : list event) :
  evolves ppk keep w w' evs → i_pk a ≠ ppk →
  unreferenced a d w → unreferenced a d w'.
Proof.
  intros Hev Hne Hun k r' Hr' [Hm Hc].
  destruct (evolves_reference_was_there _ _ _ _ _ _ _ _ _ Hev Hne Hr' Hc) as (r & Hr & Hc0).
  by apply (Hun k r Hr).
Qed.

Lemma repointed_unreferenced (a p : instance) (d : related_object) (w0 w : world)
    (evs : list event) :
  evolves (i_pk p) true w0 w evs → repointed a p w0 d w evs →
  ro_hidden d = false → i_pk a ≠ i_pk p →
  unreferenced a d w.
Proof.
  intros Hev Hrep Hhid Hne k r' Hr' [Hm Hc].
  destruct (evolves_reference_was_there _ _ _ _ _ _ _ _ _ Hev Hne Hr' Hc) as (r & Hr & Hc0).
  destruct (Hrep Hhid k r Hr (conj Hm Hc0)) as (r2 & Hr2 & [_ Hc2] & _).
  assert (r2 = r') as -> by congruence. congruence.
Qed.

Lemma at_most_one_preserved (ppk : Z) (keep : bool) (a : instance) (d : related_object)
    (w w' : world) (evs : list event) :
  evolves ppk keep w w' evs → i_pk a ≠ ppk →
  at_most_one a d w → at_most_one a d w'.
Proof.
  intros Hev Hne Hone k1 r1 k2 r2 Hr1 [Hm1 Hc1] Hr2 [Hm2 Hc2].
  destruct (evolves_reference_was_there _ _ _ _ _ _ _ _ _ Hev Hne Hr1 Hc1) as (s1 & Hs1 & ?).
  destruct (evolves_reference_was_there _ _ _ _ _ _ _ _ _ Hev Hne Hr2 Hc2) as (s2 & Hs2 & ?).
  by eapply (Hone k1 s1 k2 s2).
Qed.


(** With at most one record referencing it, an object that is referenced
    and whose relation is not hidden has a linked record. *)
Lemma at_most_one_related (a : instance) (d : related_object) (w : world)
    (k : string * Z) (r : gmap string value) :
  at_most_one a d w → ro_hidden d = false →
  db w !! k = Some r → references d (i_pk a) k r →
  one_to_one_related d a w = Some (Instance k.1 k.2 r).
Proof.
  intros Hone Hhid Hr Href. unfold one_to_one_related. rewrite Hhid.
  assert (Instance k.1 k.2 r ∈ related_rows d a w) as Hin.
  { apply elem_of_related_rows. by destruct k. }
  assert (∀ obj, obj ∈ related_rows d a w → obj = Instance k.1 k.2 r) as Hall.
  { intros obj [Hrow Hobj]%elem_of_related_rows.
    assert (key_of obj = k) as Hk by (by eapply Hone).
    destruct obj as [c pk attrs]. unfold key_of in *. simpl in *. subst k. simpl.
    f_equal. congruence. }
  pose proof (related_rows_NoDup d a w) as Hnodup.
  destruct (related_rows d a w) as [|x [|y l]].
  - by apply elem_of_nil in Hin.
  - f_equal. apply Hall, elem_of_cons. by left.
  - rewrite (Hall x), (Hall y) in Hnodup
      by (rewrite !elem_of_cons; tauto).
    simpl in Hnodup. apply NoDup_cons in Hnodup as [Hnot _].
    exfalso. apply Hnot, elem_of_cons. by left.
Qed.

(** What the loop of lines 76-83 establishes for a relation [d]: a record
    that still references the alias has a counterpart that references the
    primary object. *)
Definition primary_has_link (a p : instance) (d : related_object) (w : world) : Prop :=
  ∀ k r, db w !! k = Some r → references d (i_pk a) k r →
         ∃ k2 r2, db w !! k2 = Some r2 ∧ references d (i_pk p) k2 r2.

Lemma primary_has_link_preserved (a p : instance) (d : related_object) (w w' : world)
    (evs : list event) :
  evolves (i_pk p) true w w' evs → i_pk a ≠ i_pk p →
  primary_has_link a p d w → primary_has_link a p d w'.
Proof.
  intros Hev Hne Hlink k r' Hr' [Hm Hc].
  destruct (evolves_reference_was_there _ _ _ _ _ _ _ _ _ Hev Hne Hr' Hc) as (r & Hr & Hc0).
  destruct (Hlink k r Hr (conj Hm Hc0)) as (k2 & r2 & Hr2 & [Hm2 Hc2]).
  destruct (evolves_keeps_reference _ _ _ _ _ _ _ Hev Hr2 Hc2) as (r2' & Hr2' & Hc2').
  exists k2, r2'. by repeat split.
Qed.

Lemma migrate_one_to_one_related_link (a p : instance) (d : related_object) (w w' : world) :
  at_most_one a d w → ro_hidden d = false → i_pk a ≠ i_pk p →
  migrate_one_to_one_related a p d w = (Ok (), w') →
  primary_has_link a p d w'.
Proof.
  intros Hone Hhid Hne. rewrite migrate_one_to_one_related_run.
  destruct (one_to_one_related d a w) as [ra|] eqn:Ha.
  - destruct (one_to_one_related d p w) as [rp|] eqn:Hp.
    + intros [= <-] k r Hr Href.
      apply one_to_one_related_Some in Hp as (_ & _ & Hrow & Hrp).
      by exists (key_of rp), (i_attrs rp).
    + intros [= <-] k r Hr [Hm Hc]. exfalso. cbn [db] in Hr.
      apply one_to_one_related_Some in Ha as (_ & _ & Hrow & Hra).
      change (key_of (set_reference ra (ro_field_name d) p)) with (key_of ra) in Hr.
      destruct (decide (key_of ra = k)) as [<-|Hk].
      * rewrite lookup_insert_eq in Hr. injection Hr as <-.
        simpl in Hc. rewrite lookup_insert_eq in Hc. congruence.
      * rewrite lookup_insert_ne in Hr by done.
        apply Hk. by eapply (Hone (key_of ra) (i_attrs ra) k r).
  - intros [= <-] k r Hr Href.
    rewrite (at_most_one_related a d w k r) in Ha; done.
Qed.

Lemma elem_of_linked_keys (d : related_many) (reverse : bool) (pk x : Z)
    (links : list (string * string * Z * Z)) :
  x ∈ linked_keys d reverse pk links ↔
  (if reverse then link d x pk else link d pk x) ∈ links.
Proof.
  unfold linked_keys, link. rewrite list_elem_of_omap. split.
  - intros ([[[m f] x'] y'] & Hin & Hsome).
    destruct (bool_decide _) eqn:Hmf; [|done].
    apply bool_decide_eq_true in Hmf as [-> ->].
    destruct reverse; destruct (bool_decide _) eqn:Hpk; try done;
      apply bool_decide_eq_true in Hpk as ->; by injection Hsome as ->.
  - intros Hin. destruct reverse.
    + exists (rm_model d, rm_field_name d, x, pk). split; [done|].
      by rewrite !bool_decide_eq_true_2.
    + exists (rm_model d, rm_field_name d, pk, x). split; [done|].
      by rewrite !bool_decide_eq_true_2.
Qed.

Lemma many_manager_all_Ok (d : related_many) (reverse : bool) (a : instance)
    (objs : list instance) (w w' : world) :
  many_manager_all d reverse a w = (Ok objs, w') →
  w' = w
  ∧ ∀ x r, db w !! (rm_model d, x) = Some r →
           (if reverse then link d x (i_pk a) else link d (i_pk a) x) ∈ m2m w →
           Instance (rm_model d) x r ∈ objs.
Proof.
  intros [= <- <-]. split; [done|]. intros x r Hr Hlink.
  apply list_elem_of_omap. exists x. split.
  - apply elem_of_linked_keys. by apply elem_of_elements.
  - by rewrite Hr.
Qed.

Lemma alias_link_in_links_of (d : related_many) (obj a : instance) :
  alias_link d a (i_pk obj) ∈ links_of d obj a.
Proof.
  unfold alias_link, links_of, rm_symmetrical.
  destruct (rm_accessor_name d); simpl.
  - apply elem_of_cons. by left.
  - apply elem_of_cons. right. apply elem_of_cons. by left.
Qed.

Lemma alias_link_ends (d : related_many) (a : instance) (x : Z) :
  ∃ m f x' y', alias_link d a x = (m, f, x', y')
               ∧ (x' = x ∧ y' = i_pk a ∨ x' = i_pk a ∧ y' = x).
Proof.
  unfold alias_link, link. destruct (rm_accessor_name d); eexists _, _, _, _;
    (split; [reflexivity|]); tauto.
Qed.

(** A link between the alias and a record other than the primary object is
    never added. *)
Lemma alias_link_not_added (ppk : Z) (keep : bool) (d : related_many) (a : instance)
    (x : Z) (w w' : world) (evs : list event) :
  evolves ppk keep w w' evs → i_pk a ≠ ppk → x ≠ ppk →
  alias_link d a x ∈ m2m w' → alias_link d a x ∈ m2m w.
Proof.
  intros Hev Hne Hx Hin.
  destruct (alias_link_ends d a x) as (m & f & x' & y' & Heq & Hends).
  rewrite Heq in *.
  destruct (ev_links _ _ _ _ _ Hev m f x' y' Hin) as [?|Hp]; [done|].
  exfalso. destruct Hends as [[-> ->]|[-> ->]]; destruct Hp; done.
Qed.

(** What the loop of lines 61-73 establishes for a relation [d]: no stored
    record, the primary object apart, is linked to the alias any more. *)
Definition unlinked (a : instance) (ppk : Z) (d : related_many) (w : world) : Prop :=
  ∀ x, x ≠ ppk → alias_link d a x ∈ m2m w → db w !! (rm_model d, x) = None.

Lemma unlinked_preserved (ppk : Z) (keep : bool) (a : instance) (d : related_many)
    (w w' : world) (evs : list event) :
  evolves ppk keep w w' evs → i_pk a ≠ ppk →
  unlinked a ppk d w → unlinked a ppk d w'.
Proof.
  intros Hev Hne Hun x Hx Hin.
  apply (alias_link_not_added _ _ _ _ _ _ _ _ Hev Hne Hx) in Hin.
  specialize (Hun x Hx Hin).
  destruct (db w' !! (rm_model d, x)) as [r'|] eqn:Hr'; [|done].
  destruct (ev_rows _ _ _ _ _ Hev _ _ Hr') as (r & Hr & _). congruence.
Qed.

Lemma many_remove_links (d : related_many) (obj target : instance) (w w' : world) :
  many_remove d obj target w = (Ok (), w') →
  m2m w' = m2m w ∖ list_to_set (links_of d obj target).
Proof. by intros [= <-]. Qed.

(** Lines 62-73, the body run for one many-to-many relation. *)
Lemma many_to_many_step_unlinked (a p : instance) (d : related_many) (w w' : world) :
  i_pk a ≠ i_pk p →
  (related_many_objects <-
     (match rm_accessor_name d with
      | Some _ => many_manager_all d true a
      | None => many_manager_all d false a
      end) ;;
   for_each related_many_objects (λ obj, many_remove d obj a ;; many_add d obj p)) w
  = (Ok (), w') →
  ∃ evs, evolves (i_pk p) true w w' evs ∧ unlinked a (i_pk p) d w'.
Proof.
  intros Hne Hrun. apply bind_Ok in Hrun as (objs & w1 & Hobjs & Hrun).
  assert (w1 = w ∧ ∀ x r, db w !! (rm_model d, x) = Some r →
                           alias_link d a x ∈ m2m w →
                           Instance (rm_model d) x r ∈ objs) as [-> Hsnap].
  { unfold alias_link. destruct (rm_accessor_name d);
      by apply many_manager_all_Ok in Hobjs. }
  eapply (for_each_evolves _ _ _ _
            (λ obj u _, i_pk obj ≠ i_pk p → alias_link d a (i_pk obj) ∉ m2m u))
    in Hrun as (evs & Hev & Hall).
  - exists evs. split; [done|]. intros x Hx Hin.
    destruct (db w' !! (rm_model d, x)) as [r'|] eqn:Hr'; [|done]. exfalso.
    destruct (ev_rows _ _ _ _ _ Hev _ _ Hr') as (r & Hr & _).
    pose proof (alias_link_not_added _ _ _ _ _ _ _ _ Hev Hne Hx Hin) as Hin0.
    by apply (Hall _ (Hsnap x r Hr Hin0) Hx).
  - intros obj u1 u2 evs0 _ _ Hobj.
    apply bind_Ok in Hobj as ([] & u3 & Hrem & Hadd).
    pose proof (many_remove_evolves (i_pk p) _ _ _ _ _ Hrem) as Hev1.
    pose proof (many_add_evolves _ _ _ _ _ Hadd) as Hev2.
    eexists. split; [by eapply evolves_trans|]. intros Hx Hin.
    apply (alias_link_not_added _ _ _ _ _ _ _ _ Hev2 Hne Hx) in Hin.
    rewrite (many_remove_links _ _ _ _ _ Hrem) in Hin.
    apply elem_of_difference in Hin as [_ Hnot]. apply Hnot.
    apply elem_of_list_to_set, alias_link_in_links_of.
  - intros obj u1 u2 evs1 evs2 HQ _ Hev Hx Hin.
    apply HQ; [done|]. by eapply alias_link_not_added.
Qed.

Section Links.
Context (sch : schema).

Lemma migrate_many_to_many_unlinked (a p : instance) (w w' : world) :
  i_pk a ≠ i_pk p →
  migrate_many_to_many sch a p w = (Ok (), w') →
  ∃ evs, evolves (i_pk p) true w w' evs
         ∧ ∀ d, d ∈ get_all_related_many_to_many_objects sch a → unlinked a (i_pk p) d w'.
Proof.
  unfold migrate_many_to_many. intros Hne Hrun.
  eapply (for_each_evolves _ _ _ _ (λ d u _, unlinked a (i_pk p) d u)) in Hrun; [done| |].
  - intros d w1 w2 evs0 _ _ Hd. by apply many_to_many_step_unlinked.
  - intros d w1 w2 evs1 evs2 HQ _ Hev. by eapply unlinked_preserved.
Qed.

Lemma migrate_one_to_one_link (a p : instance) (w w' : world) :
  i_pk a ≠ i_pk p →
  migrate_one_to_one sch a p w = (Ok (), w') →
  ∃ evs, evolves (i_pk p) true w w' evs
         ∧ ∀ d, d ∈ get_all_related_one_to_one_objects sch a →
                ro_hidden d = false → at_most_one a d w → primary_has_link a p d w'.
Proof.
  unfold migrate_one_to_one. intros Hne Hrun.
  eapply (for_each_evolves _ _ _ _
            (λ d u _, ro_hidden d = false → at_most_one a d w → primary_has_link a p d u))
    in Hrun; [done| |].
  - intros d w1 w2 evs0 _ Hev0 Hd.
    destruct (migrate_one_to_one_related_evolves _ _ _ _ _ Hd) as (evs & Hev).
    exists evs. split; [done|]. intros Hhid Hone.
    eapply migrate_one_to_one_related_link; [|done|done|done].
    by eapply at_most_one_preserved.
  - intros d w1 w2 evs1 evs2 HQ _ Hev Hhid Hone.
    eapply primary_has_link_preserved; [done|done|]. by apply HQ.
Qed.

End Links.

(** * The whole loop over the aliases *)

Section Aliases.
Context (sch : schema).

(** The relations through which the turn of an alias re-points records: the
    reverse to-many relations, and with the flag those of the local fields
    that are not [AutoField]s. *)
Definition migrated_relation (md : bool) (a : instance) (d : related_object) : Prop :=
  d ∈ get_all_related_one_to_many_objects sch a
  ∨ (md = true ∧ ∃ f, f ∈ local_fields sch a ∧ lf_auto f = false ∧ lf_rel f = Some d).

Lemma turn_end_evolves (ppk : Z) (ko : bool) (a : instance) (w w' : world) :
  (if negb ko then delete a else ret ()) w = (Ok (), w') →
  evolves ppk ko w w' (if ko then [] else [EvDelete (key_of a)]).
Proof.
  destruct ko; simpl.
  - intros [_ <-]%ret_Ok. apply evolves_refl.
  - apply delete_evolves.
Qed.

(** The turn of an alias makes the store evolve; the only deletion is that
    of the alias, which happens unless [keep_old]. *)
Lemma merge_alias_evolves (md ko : bool) (a : instance) (st st' : instance * gset string)
    (w w' : world) :
  merge_alias sch md ko a st w = (Ok st', w') →
  ∃ evs, evolves (i_pk st.1) ko w w' evs
         ∧ (∀ k, EvDelete k ∈ evs → k = key_of a)
         ∧ (ko = false → EvDelete (key_of a) ∈ evs ∧ db w' !! key_of a = None).
Proof.
  intros (wm & evs & Hev & _ & _ & Hdel)%merge_alias_migration.
  pose proof (turn_end_evolves (i_pk st.1) _ _ _ _ Hdel) as Hev2.
  eexists. split; [eapply evolves_trans; [by apply evolves_keep_mono | done]|].
  split.
  - intros k [Hk|Hk]%elem_of_app.
    + by specialize (ev_deletes _ _ _ _ _ Hev k Hk).
    + destruct ko; [by apply elem_of_nil in Hk|].
      apply list_elem_of_singleton in Hk. congruence.
  - intros ->. simpl in *. split.
    + apply elem_of_app. right. by apply list_elem_of_singleton.
    + injection Hdel as <-. apply lookup_delete_eq.
Qed.

(** What the turn of an alias, with another key than the primary object,
    leaves behind. *)
Lemma merge_alias_turn (md ko : bool) (a : instance) (st st' : instance * gset string)
    (w w' : world) :
  merge_alias sch md ko a st w = (Ok st', w') →
  i_pk a ≠ i_pk st.1 →
  (∀ d, migrated_relation md a d → ro_hidden d = false → unreferenced a d w')
  ∧ (∀ d, d ∈ get_all_related_many_to_many_objects sch a → unlinked a (i_pk st.1) d w')
  ∧ (ko = true → ∀ d, d ∈ get_all_related_one_to_one_objects sch a →
       ro_hidden d = false → at_most_one a d w → primary_has_link a st.1 d w').
Proof.
  intros (w1 & w2 & w3 & w4 & w5 & H1 & H2 & H3 & H4 & H5 & H6)%merge_alias_Ok Hne.
  apply fill_missing_values_spec in H5 as [-> _].
  assert (∃ evs1, evolves (i_pk st.1) true w w1 evs1
                  ∧ (md = true → ∀ f, f ∈ local_fields sch a → lf_auto f = false →
                       ∃ d, lf_rel f = Some d ∧ repointed a st.1 w d w1 evs1))
    as (evs1 & Hev1 & Hdirect).
  { destruct md.
    - apply migrate_local_fields_evolves in H1 as (evs1 & Hev1 & Hdirect).
      exists evs1. by split.
    - apply ret_Ok in H1 as [_ <-]. exists []. split; [apply evolves_refl | done]. }
  apply (migrate_many_to_many_unlinked _ _ _ _ _ Hne) in H2 as (evs2 & Hev2 & Hlinks).
  apply (migrate_one_to_one_link _ _ _ _ _ Hne) in H3 as (evs3 & Hev3 & Hones).
  apply migrate_one_to_many_evolves in H4 as (evs4 & Hev4 & Hreverse).
  pose proof (turn_end_evolves (i_pk st.1) _ _ _ _ H6) as Hev5.
  pose proof (evolves_trans _ _ _ _ _ _ _ Hev1 Hev2) as Hev12.
  pose proof (evolves_trans _ _ _ _ _ _ _ Hev3 Hev4) as Hev34.
  pose proof (evolves_trans _ _ _ _ _ _ _ Hev2 Hev34) as Hev24.
  split; [|split].
  - intros d Hd Hhid. eapply unreferenced_preserved; [exact Hev5|done|].
    destruct Hd as [Hd|(-> & f & Hf & Hauto & Hrel)].
    + eapply repointed_unreferenced; [exact Hev4| |done|done]. by apply Hreverse.
    + destruct (Hdirect eq_refl f Hf Hauto) as (d' & Hd' & Hrep).
      assert (d' = d) as -> by congruence.
      eapply unreferenced_preserved; [exact Hev24|done|].
      by eapply repointed_unreferenced.
  - intros d Hd. eapply unlinked_preserved; [exact Hev5|done|].
    eapply unlinked_preserved; [exact Hev34|done|]. by apply Hlinks.
  - intros -> d Hd Hhid Hone. simpl in H6. apply ret_Ok in H6 as [_ <-].
    eapply primary_has_link_preserved; [exact Hev4|done|].
    apply Hones; [done|done|]. by eapply at_most_one_preserved.
Qed.

(** The loop of line 45: the store evolves through the turns; what the
    turn of an alias establishes, and the evolution preserves, holds at the
    end of the loop for every alias. *)
Lemma aliases_evolve (md ko : bool) (aliases : list instance)
    (Q : instance → world → list event → Prop) (st st' : instance * gset string)
    (w w' : world) :
  (∀ a s s' w1 w2 evs0 evs, a ∈ aliases → i_pk s.1 = i_pk st.1 →
     evolves (i_pk st.1) ko w w1 evs0 →
     merge_alias sch md ko a s w1 = (Ok s', w2) →
     evolves (i_pk st.1) ko w1 w2 evs →
     (∀ k, EvDelete k ∈ evs → k = key_of a) →
     (ko = false → EvDelete (key_of a) ∈ evs ∧ db w2 !! key_of a = None) →
     Q a w2 (evs0 ++ evs)) →
  (∀ a w1 w2 evs1 evs2, Q a w1 evs1 → evolves (i_pk st.1) ko w w1 evs1 →
     evolves (i_pk st.1) ko w1 w2 evs2 → Q a w2 (evs1 ++ evs2)) →
  for_fold aliases (merge_alias sch md ko) st w = (Ok st', w') →
  ∃ evs, evolves (i_pk st.1) ko w w' evs
         ∧ (∀ k, EvDelete k ∈ evs → ∃ a, a ∈ aliases ∧ k = key_of a)
         ∧ ∀ a, a ∈ aliases → Q a w' evs.
Proof.
  intros Hturn Hkeep Hrun.
  assert (∀ l s w1 evs0, l ⊆ aliases → i_pk s.1 = i_pk st.1 →
            evolves (i_pk st.1) ko w w1 evs0 →
            for_fold l (merge_alias sch md ko) s w1 = (Ok st', w') →
            ∃ evs, evolves (i_pk st.1) ko w1 w' evs
                   ∧ (∀ k, EvDelete k ∈ evs → ∃ a, a ∈ l ∧ k = key_of a)
                   ∧ ∀ a, a ∈ l → Q a w' (evs0 ++ evs)) as Hgen.
  { clear Hrun. induction l as [|a l IH]; intros s w1 evs0 Hsub Hs Hev0 Hrun;
      simpl in Hrun.
    - apply ret_Ok in Hrun as [_ <-]. exists []. split; [apply evolves_refl|].
      split; intros x Hx; by apply elem_of_nil in Hx.
    - apply bind_Ok in Hrun as (s1 & w2 & Ha & Hrun).
      assert (a ∈ aliases) as Hal by (apply Hsub, elem_of_cons; by left).
      destruct (merge_alias_evolves _ _ _ _ _ _ _ Ha) as (evs1 & Hev1 & Hdel & Hgone).
      rewrite Hs in Hev1.
      pose proof (merge_alias_backfill _ _ _ _ _ _ _ _ Ha) as (_ & Hpk & _).
      pose proof (Hturn a s s1 w1 w2 evs0 evs1 Hal Hs Hev0 Ha Hev1 Hdel Hgone) as HQ.
      destruct (IH s1 w2 (evs0 ++ evs1)) as (evs2 & Hev2 & Hdel2 & Hall);
        [|congruence|by eapply evolves_trans|done|].
      { intros y Hy. apply Hsub, elem_of_cons. by right. }
      exists (evs1 ++ evs2). split; [by eapply evolves_trans|]. split.
      + intros k [Hk|Hk]%elem_of_app.
        * exists a. split; [apply elem_of_cons; by left | by apply Hdel].
        * destruct (Hdel2 k Hk) as (b & Hb & ->).
          exists b. split; [apply elem_of_cons; by right | done].
      + intros b [->|Hb]%elem_of_cons.
        * rewrite app_assoc. eapply Hkeep; [done| |done]. by eapply evolves_trans.
        * rewrite app_assoc. by apply Hall. }
  destruct (Hgen aliases st w [] (reflexivity _) eq_refl (evolves_refl _ _ _) Hrun)
    as (evs & Hev & Hdel & Hall).
  by exists evs.
Qed.

End Aliases.

(** * The store after a successful call *)

Section AfterMerge.
Context (sch : schema).

(** A successful call: the loop makes the store evolve into [w1], then the
    primary object is saved. *)
Lemma merge_model_objects_evolves (p p' : instance) (aliases : alias_arg) (md ko : bool)
    (w w' : world) :
  merge_model_objects sch p aliases md ko w = (Ok p', w') →
  ∃ blank st w1,
    for_fold (as_list aliases) (merge_alias sch md ko) (p, blank) w = (Ok st, w1)
    ∧ p' = st.1 ∧ key_of p' = key_of p
    ∧ db w' = <[key_of p := i_attrs p']> (db w1)
    ∧ m2m w' = m2m w1
    ∧ log w' = log w1 ++ [EvSave (key_of p) (i_attrs p')].
Proof.
  intros (blank & st & w1 & _ & Hloop & -> & Hsave)%merge_model_objects_Ok.
  exists blank, st, w1. split; [done|]. split; [done|].
  pose proof (aliases_keep_identity _ _ _ _ _ _ _ _ Hloop) as Hkey. simpl in Hkey.
  split; [done|]. injection Hsave as <-. cbn [db m2m log]. by rewrite Hkey.
Qed.

(** What the loop leaves behind for each alias with another key than the
    primary object. *)
Lemma aliases_loop_facts (md ko : bool) (aliases : list instance)
    (st st' : instance * gset string) (w w' : world) :
  for_fold aliases (merge_alias sch md ko) st w = (Ok st', w') →
  ∃ evs, evolves (i_pk st.1) ko w w' evs
    ∧ (∀ k, EvDelete k ∈ evs → ∃ a, a ∈ aliases ∧ k = key_of a)
    ∧ ∀ a, a ∈ aliases →
        (ko = false → EvDelete (key_of a) ∈ evs ∧ db w' !! key_of a = None)
        ∧ (i_pk a ≠ i_pk st.1 →
           (∀ d, migrated_relation sch md a d → ro_hidden d = false → unreferenced a d w')
           ∧ (∀ d, d ∈ get_all_related_many_to_many_objects sch a →
                   unlinked a (i_pk st.1) d w')
           ∧ (ko = true → ∀ d, d ∈ get_all_related_one_to_one_objects sch a →
                ro_hidden d = false → at_most_one a d w →
                primary_has_link a st.1 d w')).
Proof.
  intros Hrun.
  eapply (aliases_evolve sch md ko aliases
            (λ a u evs,
               (ko = false → EvDelete (key_of a) ∈ evs ∧ db u !! key_of a = None)
               ∧ (i_pk a ≠ i_pk st.1 →
                  (∀ d, migrated_relation sch md a d → ro_hidden d = false →
                        unreferenced a d u)
                  ∧ (∀ d, d ∈ get_all_related_many_to_many_objects sch a →
                          unlinked a (i_pk st.1) d u)
                  ∧ (ko = true → ∀ d, d ∈ get_all_related_one_to_one_objects sch a →
                       ro_hidden d = false → at_most_one a d w →
                       primary_has_link a st.1 d u)))) in Hrun; [done| |].
  - intros a s s' w1 w2 evs0 evs Ha Hs Hev0 Hturn Hev Hdel Hgone. split.
    + intros Hko. destruct (Hgone Hko) as [? ?]. split; [|done].
      apply elem_of_app. by right.
    + intros Hne. rewrite <- Hs in Hne.
      destruct (merge_alias_turn _ _ _ _ _ _ _ _ Hturn Hne) as (Hrefs & Hlinks & Hones).
      rewrite Hs in Hlinks. split; [done|]. split; [done|].
      intros Hko d Hd Hhid Hone.
      assert (primary_has_link a s.1 d w2) as Hlink.
      { apply Hones; try done. eapply at_most_one_preserved; [exact Hev0| |done].
        by rewrite <- Hs. }
      intros k r Hr Href. destruct (Hlink k r Hr Href) as (k2 & r2 & Hr2 & Href2).
      exists k2, r2. by rewrite <- Hs.
  - intros a w1 w2 evs1 evs2 [Hgone Hfacts] _ Hev. split.
    + intros Hko. destruct (Hgone Hko) as [Hin Hnone]. split.
      * apply elem_of_app. by left.
      * destruct (db w2 !! key_of a) as [r'|] eqn:Hr'; [|done].
        destruct (ev_rows _ _ _ _ _ Hev _ _ Hr') as (r & Hr & _). congruence.
    + intros Hne. destruct (Hfacts Hne) as (Hrefs & Hlinks & Hones).
      split; [|split].
      * intros d Hd Hhid. eapply unreferenced_preserved; [exact Hev|done|]. by apply Hrefs.
      * intros d Hd. eapply unlinked_preserved; [exact Hev|done|]. by apply Hlinks.
      * intros -> d Hd Hhid Hone.
        eapply primary_has_link_preserved; [exact Hev|done|]. by apply Hones.
Qed.

End AfterMerge.

(** * What a successful call guarantees *)

Section Guarantees.
Context (sch : schema).

(** After a successful call, no stored record other than the primary object
    references an alias (one with another key than the primary object)
    through a reverse to-many relation that has an accessor, nor, when the
    flag is set, through the relation of a local field that is not an
    [AutoField]. *)
Theorem no_reference_left (p p' : instance) (aliases : alias_arg) (md ko : bool)
    (w w' : world) (a : instance) (d : related_object)
    (k : string * Z) (r : gmap string value) :
  merge_model_objects sch p aliases md ko w = (Ok p', w') →
  a ∈ as_list aliases → i_pk a ≠ i_pk p →
  migrated_relation sch md a d → ro_hidden d = false →
  k ≠ key_of p → db w' !! k = Some r →
  ¬ references d (i_pk a) k r.
Proof.
  intros (blank & st & w1 & Hloop & _ & _ & Hdb & _)%merge_model_objects_evolves
    Ha Hne Hd Hhid Hk Hr.
  apply aliases_loop_facts in Hloop as (evs & _ & _ & Hall).
  destruct (Hall a Ha) as [_ Hfacts]. destruct (Hfacts Hne) as (Hrefs & _).
  rewrite Hdb, lookup_insert_ne in Hr by done.
  by apply (Hrefs d Hd Hhid k r).
Qed.



(** Without [keep_old], every alias is deleted by the call, and no record is
    stored under its key afterwards unless it is the key of the primary
    object. *)
Theorem aliases_deleted (p p' : instance) (aliases : alias_arg) (md : bool)
    (w w' : world) (a : instance) :
  merge_model_objects sch p aliases md false w = (Ok p', w') →
  a ∈ as_list aliases →
  (∃ before after, log w' = log w ++ before ++ EvDelete (key_of a) :: after)
  ∧ (key_of a ≠ key_of p → db w' !! key_of a = None).
Proof.
  intros (blank & st & w1 & Hloop & _ & _ & Hdb & _ & Hlog)%merge_model_objects_evolves Ha.
  apply aliases_loop_facts in Hloop as (evs & Hev & _ & Hall).
  destruct (Hall a Ha) as [Hgone _]. destruct (Hgone eq_refl) as [Hin Hnone].
  split.
  - apply list_elem_of_split in Hin as (before & after & ->).
    exists before, (after ++ [EvSave (key_of p) (i_attrs p')]).
    rewrite Hlog, (ev_log _ _ _ _ _ Hev). by rewrite <- !app_assoc.
  - intros Hk. by rewrite Hdb, lookup_insert_ne.
Qed.

(** With [keep_old], every record stored before the call, the aliases among
    them, is stored after it. *)
Theorem records_kept (p p' : instance) (aliases : alias_arg) (md : bool)
    (w w' : world) (k : string * Z) :
  merge_model_objects sch p aliases md true w = (Ok p', w') →
  is_Some (db w !! k) → is_Some (db w' !! k).
Proof.
  intros (blank & st & w1 & Hloop & _ & _ & Hdb & _)%merge_model_objects_evolves Hk.
  apply aliases_loop_facts in Hloop as (evs & Hev & _).
  rewrite Hdb. apply lookup_insert_is_Some'. right. by eapply evolves_stays.
Qed.




(** Every many-to-many link that exists after the call existed before it or
    has the primary object at one of its ends. *)
Theorem links_only_to_primary (p p' : instance) (aliases : alias_arg) (md ko : bool)
    (w w' : world) (m f : string) (x y : Z) :
  merge_model_objects sch p aliases md ko w = (Ok p', w') →
  (m, f, x, y) ∈ m2m w' →
  (m, f, x, y) ∈ m2m w ∨ x = i_pk p ∨ y = i_pk p.
Proof.
  intros (blank & st & w1 & Hloop & _ & _ & _ & Hlinks & _)%merge_model_objects_evolves.
  apply aliases_loop_facts in Hloop as (evs & Hev & _).
  rewrite Hlinks. apply (ev_links _ _ _ _ _ Hev).
Qed.

End Guarantees.

Lemma no_reference_left_witness :
  ∃ p' w' r,
    merge_model_objects Tiny.registry Tiny.p1 (AList [Tiny.p2]) false false Tiny.store
    = (Ok p', w')
    ∧ db w' !! ("B", 4%Z) = Some r
    ∧ ¬ references Tiny.b_of (i_pk Tiny.p2) ("B", 4%Z) r.
Proof.
  pose (run := merge_model_objects Tiny.registry Tiny.p1 (AList [Tiny.p2])
                                   false false Tiny.store).
  assert (merge_model_objects Tiny.registry Tiny.p1 (AList [Tiny.p2]) false false
            Tiny.store = (Ok (returned Tiny.p1 run), run.2)) as Hrun by evaluate.
  assert (db run.2 !! ("B", 4%Z) = Some {["p" := VInt 1]}) as Hrow by evaluate.
  clearbody run.
  pose proof (no_reference_left Tiny.registry Tiny.p1 _ (AList [Tiny.p2]) false false
                Tiny.store _ Tiny.p2 Tiny.b_of ("B", 4%Z) {["p" := VInt 1]} Hrun) as Hthm.
  exists (returned Tiny.p1 run), run.2, {["p" := VInt 1]}.
  split; [exact Hrun|]. split; [exact Hrow|]. clear Hrun.
  apply Hthm; [| | | | |exact Hrow].
  - by apply list_elem_of_singleton.
  - discriminate.
  - left. by apply list_elem_of_singleton.
  - reflexivity.
  - discriminate.
Defined.



Lemma aliases_deleted_witness :
  ∃ p' w',
    merge_model_objects Tiny.registry Tiny.p1 (AList [Tiny.p2; Tiny.p3]) false false
                        Tiny.store = (Ok p', w')
    ∧ (∃ before after, log w' = log Tiny.store ++ before
                                ++ EvDelete (key_of Tiny.p3) :: after)
    ∧ db w' !! key_of Tiny.p3 = None.
Proof.
  pose (run := merge_model_objects Tiny.registry Tiny.p1 (AList [Tiny.p2; Tiny.p3])
                                   false false Tiny.store).
  assert (merge_model_objects Tiny.registry Tiny.p1 (AList [Tiny.p2; Tiny.p3]) false false
            Tiny.store = (Ok (returned Tiny.p1 run), run.2)) as Hrun by evaluate.
  clearbody run.
  pose proof (aliases_deleted Tiny.registry Tiny.p1 _ (AList [Tiny.p2; Tiny.p3]) false
                Tiny.store _ Tiny.p3 Hrun) as Hthm.
  destruct Hthm as [Hlog Hgone].
  - apply elem_of_cons. right. by apply list_elem_of_singleton.
  - exists (returned Tiny.p1 run), run.2. split; [exact Hrun|].
    split; [exact Hlog | apply Hgone; discriminate].
Defined.

Lemma records_kept_witness :
  ∃ p' w',
    merge_model_objects Tiny.registry Tiny.p1 (AList [Tiny.p2]) false true Tiny.store
    = (Ok p', w')
    ∧ is_Some (db w' !! key_of Tiny.p2).
Proof.
  pose (run := merge_model_objects Tiny.registry Tiny.p1 (AList [Tiny.p2])
                                   false true Tiny.store).
  assert (merge_model_objects Tiny.registry Tiny.p1 (AList [Tiny.p2]) false true
            Tiny.store = (Ok (returned Tiny.p1 run), run.2)) as Hrun by evaluate.
  assert (db Tiny.store !! key_of Tiny.p2 = Some (i_attrs Tiny.p2)) as Hrow by evaluate.
  clearbody run.
  exists (returned Tiny.p1 run), run.2. split; [exact Hrun|].
  apply (records_kept Tiny.registry Tiny.p1 _ (AList [Tiny.p2]) false Tiny.store _ _ Hrun).
  eexists. exact Hrow.
Defined.




Lemma links_only_to_primary_witness :
  ∃ p' w',
    merge_model_objects Tiny.registry Tiny.p1 (AList [Tiny.p2]) false false Tiny.store
    = (Ok p', w')
    ∧ ("C", "m", 8%Z, 1%Z) ∈ m2m w'
    ∧ (("C", "m", 8%Z, 1%Z) ∈ m2m Tiny.store ∨ 8%Z = i_pk Tiny.p1 ∨ 1%Z = i_pk Tiny.p1).
Proof.
  pose (run := merge_model_objects Tiny.registry Tiny.p1 (AList [Tiny.p2])
                                   false false Tiny.store).
  assert (merge_model_objects Tiny.registry Tiny.p1 (AList [Tiny.p2]) false false
            Tiny.store = (Ok (returned Tiny.p1 run), run.2)) as Hrun by evaluate.
  assert (bool_decide (("C", "m", 8%Z, 1%Z) ∈ m2m run.2) = true) as Hin by evaluate.
  clearbody run. apply bool_decide_eq_true in Hin.
  exists (returned Tiny.p1 run), run.2. split; [exact Hrun|]. split; [exact Hin|].
  exact (links_only_to_primary Tiny.registry Tiny.p1 _ (AList [Tiny.p2]) false false
           Tiny.store _ _ _ _ _ Hrun Hin).
Defined.

(** * What the call leaves alone, and how it fails *)

Section Untouched.
Context (sch : schema).




Lemma blank_in_all_or_not (l : list instance) (f : string) :
  Forall (λ a, ∀ va, i_attrs a !! f = Some va → is_blank va = true) l
  ∨ ∃ a v, a ∈ l ∧ i_attrs a !! f = Some v ∧ is_blank v = false.
Proof.
  induction l as [|a l IH]; [by left|].
  destruct IH as [IH|(b & v & Hb & Hv & Hnb)].
  - destruct (i_attrs a !! f) as [v|] eqn:Hv.
    + destruct (is_blank v) eqn:Hbv.
      * left. constructor; [|done]. intros va Hva. congruence.
      * right. exists a, v. split; [apply elem_of_cons; by left | done].
    + left. constructor; [|done]. intros va Hva. congruence.
  - right. exists b, v. split; [apply elem_of_cons; by right | done].
Qed.

(** The only attributes of the primary object that the call changes are
    its blank local fields for which some alias has a value that is not
    blank. *)
Theorem only_blank_local_fields_filled (p p' : instance) (aliases : alias_arg)
    (md ko : bool) (w w' : world) (f : string) :
  merge_model_objects sch p aliases md ko w = (Ok p', w') →
  i_attrs p' !! f ≠ i_attrs p !! f →
  (∃ lf v0, lf ∈ local_fields sch p ∧ lf_attname lf = f
            ∧ i_attrs p !! f = Some v0 ∧ is_blank v0 = true)
  ∧ ∃ a v, a ∈ as_list aliases ∧ i_attrs a !! f = Some v ∧ is_blank v = false.
Proof.
  intros (blank & st & w1 & Hblank & Hloop & -> & _)%merge_model_objects_Ok Hchanged.
  apply compute_blank_local_fields_spec in Hblank as [_ Hblank].
  destruct (decide (f ∈ blank)) as [Hf|Hf].
  - split.
    { apply Hblank in Hf as (lf & v0 & ? & ? & ? & ?). by exists lf, v0. }
    destruct (blank_in_all_or_not (as_list aliases) f) as [Hall|Hex]; [|done].
    exfalso. apply Hchanged.
    by eapply (aliases_skip_blank_field sch md ko _ (p, blank)).
  - exfalso. apply Hchanged.
    by eapply (aliases_keep_settled_field sch md ko _ (p, blank)).
Qed.



End Untouched.

(** * What lines 37-40 collect has no effect *)

(** The class with its dictionary emptied. *)
Definition strip_dict (mc : model_class) : model_class :=
  ModelClass (c_name mc) (c_bases mc) [] (c_local_fields mc)
             (c_related_many_to_many mc) (c_related_one_to_one mc)
             (c_related_one_to_many mc).

(** The registry in which no class declares anything in its dictionary, a
    generic foreign key in particular. *)
Definition without_class_dicts (sch : schema) : schema := strip_dict <$> sch.

Lemma for_each_ext {A : Type} (l : list A) (body body' : A → M unit) (w : world) :
  (∀ x u, body x u = body' x u) → for_each l body w = for_each l body' w.
Proof.
  intros Hext. revert w. induction l as [|x l IH]; intros w; [done|].
  simpl. apply bind_cong; [apply Hext | intros _ u; apply IH].
Qed.

Lemma for_fold_ext {A S : Type} (l : list A) (body body' : A → S → M S) (s : S)
    (w : world) :
  (∀ x s' u, body x s' u = body' x s' u) → for_fold l body s w = for_fold l body' s w.
Proof.
  intros Hext. revert s w. induction l as [|x l IH]; intros s w; [done|].
  simpl. apply bind_cong; [apply Hext | intros s' u; apply IH].
Qed.

Section GenericFields.
Context (sch : schema).

Lemma find_class_without (c : string) :
  find_class (without_class_dicts sch) c = strip_dict <$> find_class sch c.
Proof.
  unfold find_class, without_class_dicts. induction sch as [|mc l IH]; [done|].
  simpl. by destruct (bool_decide (c_name mc = c)).
Qed.

Lemma mro_without (c : string) : mro (without_class_dicts sch) c = mro sch c.
Proof. unfold mro. rewrite find_class_without. by destruct (find_class sch c). Qed.

Lemma local_fields_without (obj : instance) :
  local_fields (without_class_dicts sch) obj = local_fields sch obj.
Proof.
  unfold local_fields. rewrite find_class_without. by destruct (find_class sch _).
Qed.

Lemma related_many_to_many_without (obj : instance) :
  get_all_related_many_to_many_objects (without_class_dicts sch) obj
  = get_all_related_many_to_many_objects sch obj.
Proof.
  unfold get_all_related_many_to_many_objects. rewrite find_class_without.
  by destruct (find_class sch _).
Qed.

Lemma related_one_to_one_without (obj : instance) :
  get_all_related_one_to_one_objects (without_class_dicts sch) obj
  = get_all_related_one_to_one_objects sch obj.
Proof.
  unfold get_all_related_one_to_one_objects. rewrite find_class_without.
  by destruct (find_class sch _).
Qed.

Lemma related_one_to_many_without (obj : instance) :
  get_all_related_one_to_many_objects (without_class_dicts sch) obj
  = get_all_related_one_to_many_objects sch obj.
Proof.
  unfold get_all_related_one_to_many_objects. rewrite find_class_without.
  by destruct (find_class sch _).
Qed.

Lemma merge_alias_without (md ko : bool) (a : instance) (st : instance * gset string)
    (w : world) :
  merge_alias (without_class_dicts sch) md ko a st w = merge_alias sch md ko a st w.
Proof.
  unfold merge_alias, migrate_local_fields, migrate_many_to_many, migrate_one_to_one,
    migrate_one_to_many.
  by rewrite local_fields_without, related_many_to_many_without,
    related_one_to_one_without, related_one_to_many_without.
Qed.

Lemma collect_generic_fields_without :
  collect_generic_fields (without_class_dicts sch) = [].
Proof.
  unfold collect_generic_fields, without_class_dicts.
  induction sch as [|mc l IH]; [done|]. simpl. exact IH.
Qed.

(** A generic foreign key is collected exactly when a registered model
    declares it in its dictionary. *)
Lemma elem_of_collect_generic_fields (g : generic_foreign_key) :
  AttrGenericForeignKey g ∈ collect_generic_fields sch ↔
  ∃ mc name, mc ∈ sch ∧ (name, AttrGenericForeignKey g) ∈ c_dict mc.
Proof.
  unfold collect_generic_fields. rewrite list_elem_of_In, in_flat_map. split.
  - intros (mc & Hmc & Hin). apply list_elem_of_In, list_elem_of_fmap in Hin
      as ([name attr] & -> & Hin).
    apply list_elem_of_filter in Hin as [_ Hin].
    exists mc, name. split; [by apply list_elem_of_In | done].
  - intros (mc & name & Hmc & Hin). exists mc. split; [by apply list_elem_of_In|].
    apply list_elem_of_In, list_elem_of_fmap. exists (name, AttrGenericForeignKey g).
    split; [done|]. by apply list_elem_of_filter.
Qed.

(** The generic foreign keys play no part in the call: lines 37-40 collect
    those that the registered models declare, and the call does in every
    store what it does with a registry in which no model declares any, where
    nothing is collected. *)
Theorem generic_fields_unused (p : instance) (aliases : alias_arg) (md ko : bool)
    (w : world) :
  (∀ g, AttrGenericForeignKey g ∈ collect_generic_fields sch ↔
        ∃ mc name, mc ∈ sch ∧ (name, AttrGenericForeignKey g) ∈ c_dict mc)
  ∧ collect_generic_fields (without_class_dicts sch) = []
  ∧ merge_model_objects (without_class_dicts sch) p aliases md ko w
    = merge_model_objects sch p aliases md ko w.
Proof.
  split; [apply elem_of_collect_generic_fields|].
  split; [apply collect_generic_fields_without|].
  assert (merge_model_objects_body (without_class_dicts sch) p aliases md ko w
          = merge_model_objects_body sch p aliases md ko w) as Hbody;
    [|unfold merge_model_objects, transaction_atomic; by rewrite Hbody].
  unfold merge_model_objects_body, issubclass. rewrite mro_without.
  destruct (negb _); [done|].
  apply bind_cong.
  { unfold check_aliases. apply for_each_ext. intros a u.
    unfold isinstance, issubclass. by rewrite mro_without. }
  intros _ u. apply bind_cong.
  { unfold compute_blank_local_fields. by rewrite local_fields_without. }
  intros blank u1. apply bind_cong; [|done].
  apply for_fold_ext. intros a s u2. apply merge_alias_without.
Qed.

End GenericFields.

(** * When the call completes *)

Section Completion.
Context (sch : schema).





End Completion.


Lemma only_blank_local_fields_filled_witness :
  ∃ p' w',
    merge_model_objects Tiny.registry Tiny.p1 (AList [Tiny.p2]) false false Tiny.store
    = (Ok p', w')
    ∧ (∃ lf v0, lf ∈ local_fields Tiny.registry Tiny.p1 ∧ lf_attname lf = "n"
                ∧ i_attrs Tiny.p1 !! "n" = Some v0 ∧ is_blank v0 = true)
    ∧ ∃ a v, a ∈ [Tiny.p2] ∧ i_attrs a !! "n" = Some v ∧ is_blank v = false.
Proof.
  pose (run := merge_model_objects Tiny.registry Tiny.p1 (AList [Tiny.p2])
                                   false false Tiny.store).
  assert (merge_model_objects Tiny.registry Tiny.p1 (AList [Tiny.p2]) false false
            Tiny.store = (Ok (returned Tiny.p1 run), run.2)) as Hrun by evaluate.
  assert (i_attrs (returned Tiny.p1 run) !! "n" = Some (VStr "x")) as Hnew by evaluate.
  assert (i_attrs Tiny.p1 !! "n" = Some VNone) as Hold by evaluate.
  clearbody run.
  exists (returned Tiny.p1 run), run.2. split; [exact Hrun|].
  apply (only_blank_local_fields_filled Tiny.registry Tiny.p1 _ (AList [Tiny.p2])
           false false Tiny.store _ "n" Hrun).
  rewrite Hnew, Hold. discriminate.
Defined.


